(** * convert_doors: door SQL dumps to YAML

    A shallow embedding of [tools/convert_doors.py] and the properties of
    its parse-then-emit pipeline.

    Modelling conventions.
    - A Python [str] is a list of Unicode code points ([text]); a code
      point is an [N].  Files hold text: the contents as decoded by
      [open(..., encoding='utf-8')]; an input that does not decode is
      outside the model, and a document is compared as the text written,
      of which its bytes are a function.
    - A file can be read when it is there; whether a path can be opened
      for writing is given by the world, and a write to an opened file
      succeeds.
    - Python integers are unbounded, hence [Z].  The interpreter's optional
      guard on the length of decimal conversions is a setting of the
      interpreter and is taken to be off.
    - [re.compile(...).search] is a backtracking matcher over the fragment
      of regular expressions the two patterns use: single characters and
      character classes under the greedy quantifiers [?], [*] and [+], and
      capture groups that are not nested.
    - Exceptions are values of [exn]; code that reads or writes files runs
      in a state-and-error monad over [World]. *)

From Stdlib Require Import ZArith NArith Ascii String Lia.
From Stdlib Require DecimalZ.
From stdpp Require Import base option list strings gmap.

Local Open Scope string_scope.
Local Open Scope list_scope.
Local Open Scope N_scope.

(** * The program *)

(** ** Text *)

Definition char := N.
Definition text := list char.

Definition chr (a : ascii) : char := N_of_ascii a.

Fixpoint txt (s : string) : text :=
  match s with
  | EmptyString => []
  | String a s' => chr a :: txt s'
  end.

Definition nl : char := 10.
Definition cr : char := 13.
Definition quote : char := 39.
Definition minus : char := 45.
Definition plus : char := 43.
Definition underscore : char := 95.

(** [s[a:b]] for [0 <= a <= b]. *)
Definition slice (a b : nat) (s : text) : text := take (b - a) (drop a s).

(** ** Unicode classes used by [re] and [int]

    Every run of decimal digits (category Nd) is ten consecutive code
    points with values 0 to 9; the table lists the zero of each run
    (Unicode 14.0). *)

Definition Nd_zeros : list N :=
  [48; 1632; 1776; 1984; 2406; 2534; 2662; 2790; 2918; 3046; 3174; 3302;
   3430; 3558; 3664; 3792; 3872; 4160; 4240; 6112; 6160; 6470; 6608; 6784;
   6800; 6992; 7088; 7232; 7248; 42528; 43216; 43264; 43472; 43504; 43600;
   44016; 65296; 66720; 68912; 69734; 69872; 69942; 70096; 70384; 70736;
   70864; 71248; 71360; 71472; 71904; 72016; 72784; 73040; 73120; 92768;
   92864; 93008; 120782; 120792; 120802; 120812; 120822; 123200; 123632;
   125264; 130032].

Definition in_run (c z : N) : bool := (z <=? c) && (c <? z + 10).

(** The decimal value of a digit character, [None] for any other. *)
Definition digit_value (c : char) : option N :=
  match List.find (in_run c) Nd_zeros with
  | Some z => Some (c - z)
  | None => None
  end.

Definition is_digit (c : char) : bool :=
  match digit_value c with Some _ => true | None => false end.

(** [str.isspace] on one character, which is also [\s]. *)
Definition is_space (c : char) : bool :=
  ((9 <=? c) && (c <=? 13)) || ((28 <=? c) && (c <=? 32))
  || (c =? 133) || (c =? 160) || (c =? 5760)
  || ((8192 <=? c) && (c <=? 8202))
  || (c =? 8232) || (c =? 8233) || (c =? 8239) || (c =? 8287)
  || (c =? 12288).

(** ** Exceptions *)

Inductive exn := OSError | ValueError | IndexError.

Inductive result (A : Type) :=
| Ok (a : A)
| Raise (e : exn).
Arguments Ok {A} a.
Arguments Raise {A} e.

#[export] Instance result_ret : MRet result := fun A a => Ok a.
#[export] Instance result_bind : MBind result := fun A B f r =>
  match r with Ok a => f a | Raise e => Raise e end.
#[export] Instance result_fmap : FMap result := fun A B f r =>
  match r with Ok a => Ok (f a) | Raise e => Raise e end.

(** ** The builtin [int] on a string, base 10 *)

(** The blanks [int] strips from both ends: the separators 28 to 31 are
    [\s] but are not stripped. *)
Definition int_space (c : char) : bool :=
  is_space c && negb ((28 <=? c) && (c <=? 31)).

Fixpoint lstrip (s : text) : text :=
  match s with
  | c :: s' => if int_space c then lstrip s' else s
  | [] => []
  end.

Definition strip (s : text) : text := rev (lstrip (rev (lstrip s))).

(** Digits, with single underscores allowed between two digits.
    [prev] tells whether the previous character was a digit. *)
Fixpoint int_digits (prev : bool) (acc : Z) (s : text) : option Z :=
  match s with
  | [] => if prev then Some acc else None
  | c :: s' =>
      match digit_value c with
      | Some d => int_digits true (10 * acc + Z.of_N d) s'
      | None => if (c =? underscore) && prev then int_digits false acc s'
                else None
      end
  end.

Definition int_of_str (s : text) : result Z :=
  let body :=
    match strip s with
    | c :: ds =>
        if c =? minus then Z.opp <$> int_digits false 0 ds
        else if c =? plus then int_digits false 0 ds
        else int_digits false 0 (c :: ds)
    | [] => None
    end in
  match body with Some z => Ok z | None => Raise ValueError end.

(** ** The builtin [str] on an integer *)

Fixpoint uint_text (d : Decimal.uint) : text :=
  match d with
  | Decimal.Nil => []
  | Decimal.D0 d' => 48 :: uint_text d'
  | Decimal.D1 d' => 49 :: uint_text d'
  | Decimal.D2 d' => 50 :: uint_text d'
  | Decimal.D3 d' => 51 :: uint_text d'
  | Decimal.D4 d' => 52 :: uint_text d'
  | Decimal.D5 d' => 53 :: uint_text d'
  | Decimal.D6 d' => 54 :: uint_text d'
  | Decimal.D7 d' => 55 :: uint_text d'
  | Decimal.D8 d' => 56 :: uint_text d'
  | Decimal.D9 d' => 57 :: uint_text d'
  end.

Definition str_of_int (z : Z) : text :=
  match Z.to_int z with
  | Decimal.Pos d => uint_text d
  | Decimal.Neg d => minus :: uint_text d
  end.

(** ** Regular expressions *)

Inductive cls :=
| CChar (c : char)   (* one given character *)
| CDigit             (* \d *)
| CSpace             (* \s *)
| CNot (c : char).   (* [^c] *)

Definition in_cls (k : cls) (x : char) : bool :=
  match k with
  | CChar c => x =? c
  | CDigit => is_digit x
  | CSpace => is_space x
  | CNot c => negb (x =? c)
  end.

Inductive quant := Once | Opt | Star | Plus.

Inductive tok :=
| Atom (k : cls) (q : quant)
| GOpen
| GClose.

Definition regex := list tok.

Definition re_lit (s : string) : regex := (fun c => Atom (CChar c) Once) <$> txt s.
Definition re_group (r : regex) : regex := GOpen :: r ++ [GClose].

(** The matcher threads the position in the line and the group boundaries
    passed so far, most recent first; on success it gives the end of the
    match and the boundaries. *)
Definition cont := text -> nat -> list nat -> option (nat * list nat).

(** Greedy repetition of a class in front of the continuation [k]: take
    one more character if possible, fall back to [k] here if that fails. *)
Fixpoint star (p : char -> bool) (k : cont) (s : text) (pos : nat)
    (marks : list nat) : option (nat * list nat) :=
  match s with
  | x :: s' =>
      if p x then
        match star p k s' (S pos) marks with
        | Some r => Some r
        | None => k s pos marks
        end
      else k s pos marks
  | [] => k s pos marks
  end.

Fixpoint match_here (r : regex) : cont :=
  match r with
  | [] => fun s pos marks => Some (pos, marks)
  | GOpen :: r' | GClose :: r' =>
      fun s pos marks => match_here r' s pos (pos :: marks)
  | Atom c Once :: r' => fun s pos marks =>
      match s with
      | x :: s' => if in_cls c x then match_here r' s' (S pos) marks else None
      | [] => None
      end
  | Atom c Opt :: r' => fun s pos marks =>
      match s with
      | x :: s' =>
          if in_cls c x then
            match match_here r' s' (S pos) marks with
            | Some res => Some res
            | None => match_here r' s pos marks
            end
          else match_here r' s pos marks
      | [] => match_here r' s pos marks
      end
  | Atom c Star :: r' => star (in_cls c) (match_here r')
  | Atom c Plus :: r' => fun s pos marks =>
      match s with
      | x :: s' =>
          if in_cls c x then star (in_cls c) (match_here r') s' (S pos) marks
          else None
      | [] => None
      end
  end.

(** A match object: the searched string and [m.regs], the span of the
    whole match followed by the span of each group. *)
Record Match := { m_string : text; m_regs : list (nat * nat) }.

Fixpoint pairs (l : list nat) : list (nat * nat) :=
  match l with
  | a :: b :: l' => (a, b) :: pairs l'
  | _ => []
  end.

(** [pattern.search(line)]: the match at the leftmost position that has
    one; [s] is the line from [pos] on. *)
Fixpoint search_from (r : regex) (line s : text) (pos : nat) : option Match :=
  match match_here r s pos [] with
  | Some (e, marks) =>
      Some {| m_string := line; m_regs := (pos, e) :: pairs (rev marks) |}
  | None =>
      match s with
      | [] => None
      | _ :: s' => search_from r line s' (S pos)
      end
  end.

Definition search (r : regex) (line : text) : option Match :=
  search_from r line line 0.

(** [m.group(k)] *)
Definition group (m : Match) (k : nat) : result text :=
  match m_regs m !! k with
  | Some (a, b) => Ok (slice a b (m_string m))
  | None => Raise IndexError
  end.

(** ** The two patterns *)

Definition re_digits : regex := [Atom CDigit Plus].                  (* \d+ *)
Definition re_signed : regex := [Atom (CChar minus) Opt; Atom CDigit Plus]. (* -?\d+ *)
Definition re_free : regex := [Atom (CNot quote) Star].              (* [^']* *)
Definition re_sep : regex := re_lit "'," ++ [Atom CSpace Star] ++ re_lit "'". (* ',\s*' *)

Definition gfx_pattern : regex :=
  re_lit "INSERT INTO `door_gfxs` VALUES ('"
  ++ re_group re_digits ++ re_sep ++ re_group re_free ++ re_sep
  ++ re_group re_digits ++ re_sep ++ re_group re_signed ++ re_sep
  ++ re_group re_signed ++ re_lit "');".

Definition spawn_pattern : regex :=
  re_lit "INSERT INTO `spawnlist_door` VALUES ('"
  ++ re_group re_digits ++ re_sep ++ re_group re_free ++ re_sep
  ++ re_group re_digits ++ re_sep ++ re_group re_digits ++ re_sep
  ++ re_group re_digits ++ re_sep ++ re_group re_digits ++ re_sep
  ++ re_group re_digits ++ re_sep ++ re_group re_digits ++ re_sep
  ++ re_group re_digits ++ re_lit "');".

(** ** Records *)

Module Gfx.
Record entry := {
  gfxid : Z;
  note : text;
  direction : Z;
  left_edge_offset : Z;
  right_edge_offset : Z
}.
End Gfx.

Module Spawn.
Record entry := {
  id : Z;
  location : text;
  gfxid : Z;
  x : Z;
  y : Z;
  map_id : Z;
  hp : Z;
  keeper : Z;
  is_opening : bool
}.
End Spawn.

(** ** Extraction *)

(** The dictionary built from a match of [gfx_pattern]. *)
Definition gfx_entry (m : Match) : result Gfx.entry :=
  g1 ← group m 1; gfxid ← int_of_str g1;
  note ← group m 2;
  g3 ← group m 3; direction ← int_of_str g3;
  g4 ← group m 4; left_edge_offset ← int_of_str g4;
  g5 ← group m 5; right_edge_offset ← int_of_str g5;
  mret {| Gfx.gfxid := gfxid; Gfx.note := note; Gfx.direction := direction;
          Gfx.left_edge_offset := left_edge_offset;
          Gfx.right_edge_offset := right_edge_offset |}.

(** The dictionary built from a match of [spawn_pattern]. *)
Definition spawn_entry (m : Match) : result Spawn.entry :=
  g1 ← group m 1; id ← int_of_str g1;
  location ← group m 2;
  g3 ← group m 3; gfxid ← int_of_str g3;
  g4 ← group m 4; x ← int_of_str g4;
  g5 ← group m 5; y ← int_of_str g5;
  g6 ← group m 6; map_id ← int_of_str g6;
  g7 ← group m 7; hp ← int_of_str g7;
  g8 ← group m 8; keeper ← int_of_str g8;
  g9 ← group m 9;
  mret {| Spawn.id := id; Spawn.location := location; Spawn.gfxid := gfxid;
          Spawn.x := x; Spawn.y := y; Spawn.map_id := map_id; Spawn.hp := hp;
          Spawn.keeper := keeper;
          Spawn.is_opening := bool_decide (g9 = txt "1") |}.

(** One turn of [for line in f]: on a match the new dictionary is appended
    to [entries], otherwise [entries] is left as it is. *)
Definition scan_line {E} (pattern : regex) (entry : Match -> result E)
    (entries : list E) (line : text) : result (list E) :=
  match search pattern line with
  | Some m => e ← entry m; mret (entries ++ [e])
  | None => mret entries
  end.

Fixpoint scan_lines {E} (pattern : regex) (entry : Match -> result E)
    (entries : list E) (lines : list text) : result (list E) :=
  match lines with
  | [] => mret entries
  | line :: rest =>
      entries' ← scan_line pattern entry entries line;
      scan_lines pattern entry entries' rest
  end.

Definition parse_gfx_lines (lines : list text) : result (list Gfx.entry) :=
  scan_lines gfx_pattern gfx_entry [] lines.

Definition parse_spawn_lines (lines : list text) : result (list Spawn.entry) :=
  scan_lines spawn_pattern spawn_entry [] lines.

(** ** Files *)

(** The lines a text file yields when iterated: each ends at a line break,
    which is kept as a newline; a lone carriage return and a carriage
    return followed by a newline both count as one line break.  [cur] is
    the current line so far, reversed. *)
Fixpoint lines_from (cur : text) (s : text) : list text :=
  match s with
  | [] => match cur with [] => [] | _ => [rev cur] end
  | c :: s' =>
      if c =? nl then rev (nl :: cur) :: lines_from [] s'
      else if c =? cr then
        match s' with
        | c' :: s'' =>
            if c' =? nl then rev (nl :: cur) :: lines_from [] s''
            else rev (nl :: cur) :: lines_from [] s'
        | [] => [rev (nl :: cur)]
        end
      else lines_from (c :: cur) s'
  end.

(** [for line in f] over a file with this content. *)
Definition file_lines (content : text) : list text := lines_from [] content.

Record World := {
  files : gmap string text;     (* the text files there are, by path *)
  writable : string -> bool;    (* the paths that can be opened for writing *)
  stdout : text                 (* what has been printed *)
}.

(** Code that reads and writes files and prints: it ends with a value or
    an exception, in a new world. *)
Definition M (A : Type) : Type := World -> result A * World.

#[export] Instance M_ret : MRet M := fun A a w => (Ok a, w).
#[export] Instance M_bind : MBind M := fun A B f c w =>
  match c w with
  | (Ok a, w') => f a w'
  | (Raise e, w') => (Raise e, w')
  end.

(** Code that touches nothing of the world. *)
Definition lift {A} (r : result A) : M A := fun w => (r, w).

(** [open(path, 'r')] and reading the file to its end. *)
Definition read_text (path : string) : M text := fun w =>
  match files w !! path with
  | Some content => (Ok content, w)
  | None => (Raise OSError, w)
  end.

(** [with open(path, 'w') as f:] around writes that leave [content]. *)
Definition write_text (path : string) (content : text) : M unit := fun w =>
  if writable w path then
    (Ok tt, {| files := <[path := content]> (files w);
               writable := writable w; stdout := stdout w |})
  else (Raise OSError, w).

(** [print(line)] *)
Definition print (line : text) : M unit := fun w =>
  (Ok tt, {| files := files w; writable := writable w;
             stdout := stdout w ++ line ++ [nl] |}).

Definition parse_gfx_sql (path : string) : M (list Gfx.entry) :=
  content ← read_text path; lift (parse_gfx_lines (file_lines content)).

Definition parse_spawn_sql (path : string) : M (list Spawn.entry) :=
  content ← read_text path; lift (parse_spawn_lines (file_lines content)).

(** ** Emission *)

(** [f"{label}{value}\n"] *)
Definition field_line (label : string) (value : text) : text :=
  txt label ++ value ++ [nl].

(** The four writes for one graphics entry, after what [f] holds. *)
Definition gfx_write (buf : text) (e : Gfx.entry) : text :=
  buf
  ++ field_line "  - gfxid: " (str_of_int (Gfx.gfxid e))
  ++ field_line "    direction: " (str_of_int (Gfx.direction e))
  ++ field_line "    left_edge_offset: " (str_of_int (Gfx.left_edge_offset e))
  ++ field_line "    right_edge_offset: " (str_of_int (Gfx.right_edge_offset e)).

Definition gfx_yaml_text (entries : list Gfx.entry) : text :=
  fold_left gfx_write entries (txt "door_gfxs:" ++ [nl]).

Definition write_gfx_yaml (entries : list Gfx.entry) (path : string) : M unit :=
  write_text path (gfx_yaml_text entries);;
  print (txt "Wrote " ++ str_of_int (Z.of_nat (length entries))
         ++ txt " GFX entries to " ++ txt path).

(** The eight writes for one spawn entry. *)
Definition spawn_write (buf : text) (e : Spawn.entry) : text :=
  let is_opening := if Spawn.is_opening e then txt "true" else txt "false" in
  buf
  ++ field_line "  - id: " (str_of_int (Spawn.id e))
  ++ field_line "    gfxid: " (str_of_int (Spawn.gfxid e))
  ++ field_line "    x: " (str_of_int (Spawn.x e))
  ++ field_line "    y: " (str_of_int (Spawn.y e))
  ++ field_line "    map_id: " (str_of_int (Spawn.map_id e))
  ++ field_line "    hp: " (str_of_int (Spawn.hp e))
  ++ field_line "    keeper: " (str_of_int (Spawn.keeper e))
  ++ field_line "    is_opening: " is_opening.

Definition spawn_yaml_text (entries : list Spawn.entry) : text :=
  fold_left spawn_write entries (txt "doors:" ++ [nl]).

Definition write_spawn_yaml (entries : list Spawn.entry) (path : string) : M unit :=
  write_text path (spawn_yaml_text entries);;
  print (txt "Wrote " ++ str_of_int (Z.of_nat (length entries))
         ++ txt " spawn entries to " ++ txt path).

(** ** The script *)

Definition gfx_sql := "l1j_java/db/Taiwan/door_gfxs.sql".
Definition spawn_sql := "l1j_java/db/Taiwan/spawnlist_door.sql".
Definition gfx_yaml := "server/data/yaml/door_gfx.yaml".
Definition spawn_yaml := "server/data/yaml/door_spawn.yaml".

Definition main : M unit :=
  gfx ← parse_gfx_sql gfx_sql;
  spawns ← parse_spawn_sql spawn_sql;
  write_gfx_yaml gfx gfx_yaml;;
  write_spawn_yaml spawns spawn_yaml.

(** * Vocabulary of the properties *)

(** ** Characters and captured text *)

Definition comma : char := 44.

(** A character that is not a line break. *)
Definition plain (c : char) : bool := negb (c =? nl) && negb (c =? cr).

(** The characters of [is_space], one by one. *)
Definition space_chars : list N :=
  [9; 10; 11; 12; 13; 28; 29; 30; 31; 32; 133; 160; 5760; 8192; 8193; 8194;
   8195; 8196; 8197; 8198; 8199; 8200; 8201; 8202; 8232; 8233; 8239; 8287;
   12288].

(** One or more digits: what [\d+] captures. *)
Definition digit_str (s : text) : bool :=
  match s with
  | [] => false
  | _ => forallb is_digit s
  end.

(** [-?\d+] *)
Definition signed_str (s : text) : bool :=
  match s with
  | c :: ds => if c =? minus then digit_str ds else digit_str s
  | [] => false
  end.

(** [[^']*] *)
Definition free_str (s : text) : bool := forallb (in_cls (CNot quote)) s.

(** [\s*] *)
Definition blank_str (s : text) : bool := forallb is_space s.

(** One more digit to the right of a number in base 10. *)
Definition dec_step (acc : Z) (c : char) : Z :=
  (10 * acc + Z.of_N (default 0%N (digit_value c)))%Z.

(** The value of a string of digits read in base 10. *)
Definition dec_value (s : text) : Z := fold_left dec_step s 0%Z.

(** The value of a string of digits with an optional sign in front. *)
Definition signed_value (s : text) : Z :=
  match s with
  | c :: ds => if c =? minus then (- dec_value ds)%Z else dec_value s
  | [] => 0%Z
  end.

(** [s.startswith(p)] *)
Fixpoint starts_with (p s : text) : bool :=
  match p, s with
  | [], _ => true
  | a :: p', b :: s' => (a =? b) && starts_with p' s'
  | _ :: _, [] => false
  end.

(** [p] occurs in [s] as a run of consecutive characters. *)
Fixpoint occurs (p s : text) : bool :=
  starts_with p s
  || match s with
     | [] => false
     | _ :: s' => occurs p s'
     end.

(** ** Matching *)

(** The literal character a pattern has to start with, if any. *)
Fixpoint head_char (r : regex) : option char :=
  match r with
  | GOpen :: r' | GClose :: r' => head_char r'
  | Atom (CChar c) Once :: _ => Some c
  | _ => None
  end.

(** The three kinds of group of the two patterns, their patterns and the
    texts they capture. *)
Inductive kind := KDigits | KSigned | KFree.

Definition kind_re (k : kind) : regex :=
  match k with
  | KDigits => re_digits
  | KSigned => re_signed
  | KFree => re_free
  end.

Definition kind_ok (k : kind) (f : text) : bool :=
  match k with
  | KDigits => digit_str f
  | KSigned => signed_str f
  | KFree => free_str f
  end.

(** The separator between two fields. *)
Definition sep_text (ws : text) : text := quote :: comma :: ws ++ [quote].

(** A tuple pattern: groups of the given kinds with a separator between
    each two; and the text of a tuple: a first field, then each further
    field with the blanks in front of its opening quote. *)
Fixpoint tuple_re (k : kind) (ks : list kind) : regex :=
  re_group (kind_re k)
  ++ match ks with
     | [] => []
     | k' :: ks' => re_sep ++ tuple_re k' ks'
     end.

Fixpoint tuple_text (f : text) (more : list (text * text)) : text :=
  f ++ match more with
       | [] => []
       | (ws, f') :: more' => sep_text ws ++ tuple_text f' more'
       end.

Fixpoint tuple_ok (k : kind) (ks : list kind) (f : text)
    (more : list (text * text)) : bool :=
  kind_ok k f
  && match ks, more with
     | [], [] => true
     | k' :: ks', (ws, f') :: more' => blank_str ws && tuple_ok k' ks' f' more'
     | _, _ => false
     end.

(** The spans of the fields of a tuple that starts at [pos]. *)
Fixpoint tuple_spans (pos : nat) (f : text) (more : list (text * text))
    : list (nat * nat) :=
  (pos, pos + length f)%nat
  :: match more with
     | [] => []
     | (ws, f') :: more' =>
         tuple_spans (pos + length f + length (sep_text ws)) f' more'
     end.

(** The boundaries of [spans] pushed on [mk], as the matcher pushes them. *)
Fixpoint add_marks (spans : list (nat * nat)) (mk : list nat) : list nat :=
  match spans with
  | [] => mk
  | (a, b) :: spans' => add_marks spans' (b :: a :: mk)
  end.

Fixpoint flat (spans : list (nat * nat)) : list nat :=
  match spans with
  | [] => []
  | (a, b) :: spans' => a :: b :: flat spans'
  end.

Definition span_text (s : text) (sp : nat * nat) : text := slice sp.1 sp.2 s.

(** A statement: a head, a tuple and the closing [');], as a pattern and
    as a text. *)
Definition stmt_re (head : string) (k : kind) (ks : list kind) : regex :=
  re_lit head ++ tuple_re k ks ++ re_lit "');".

Definition stmt_text (head : string) (f : text) (more : list (text * text))
    : text :=
  txt head ++ tuple_text f more ++ txt "');".

(** The texts of the groups of a match. *)
Definition groups (m : Match) : list text :=
  span_text (m_string m) <$> tail (m_regs m).

(** ** Lines and what they contribute *)

Definition gfx_head := "INSERT INTO `door_gfxs` VALUES ('".
Definition spawn_head := "INSERT INTO `spawnlist_door` VALUES ('".

Definition gfx_kinds : list kind := [KFree; KDigits; KSigned; KSigned].
Definition spawn_kinds : list kind :=
  [KFree; KDigits; KDigits; KDigits; KDigits; KDigits; KDigits; KDigits].

(** A graphics line in the documented format: the five quoted fields,
    with [ws1] to [ws4] the blanks after the commas. *)
Definition gfx_line (gfxid ws1 note ws2 direction ws3 left ws4 right : text)
    : text :=
  txt "INSERT INTO `door_gfxs` VALUES ('" ++ gfxid
  ++ txt "'," ++ ws1 ++ txt "'" ++ note
  ++ txt "'," ++ ws2 ++ txt "'" ++ direction
  ++ txt "'," ++ ws3 ++ txt "'" ++ left
  ++ txt "'," ++ ws4 ++ txt "'" ++ right ++ txt "');".

(** A spawn line in the documented format: [rest] holds the seven fields
    after [location], each with the blanks in front of it, the last one
    being [is_opening]. *)
Definition spawn_line (id ws1 location : text) (rest : list (text * text))
    : text :=
  txt "INSERT INTO `spawnlist_door` VALUES ('" ++ id
  ++ txt "'," ++ ws1 ++ txt "'" ++ location
  ++ concat ((fun p => txt "'," ++ p.1 ++ txt "'" ++ p.2) <$> rest)
  ++ txt "');".

(** The line of the scenario. *)
Definition scenario_line : text :=
  txt "INSERT INTO `door_gfxs` VALUES ('101', 'north door', '2', '-5', '10');".

(** The dictionary a line contributes, if it contributes one. *)
Definition line_entry {E} (pattern : regex) (entry : Match -> result E)
    (line : text) : option E :=
  match search pattern line with
  | Some m => match entry m with Ok e => Some e | Raise _ => None end
  | None => None
  end.


Definition gfx_of_line : text -> option Gfx.entry := line_entry gfx_pattern gfx_entry.
Definition spawn_of_line : text -> option Spawn.entry :=
  line_entry spawn_pattern spawn_entry.


(** The records the two pipelines extract from the contents of their
    inputs. *)
Definition gfx_entries (content : text) : list Gfx.entry :=
  omap gfx_of_line (file_lines content).
Definition spawn_entries (content : text) : list Spawn.entry :=
  omap spawn_of_line (file_lines content).

(** ** Documents and printed lines *)

(** The text one graphics entry adds to the document. *)
Definition gfx_item (e : Gfx.entry) : text := gfx_write [] e.

(** The text one spawn entry adds to the document. *)
Definition spawn_item (e : Spawn.entry) : text := spawn_write [] e.

(** The lines printed after writing. *)
Definition gfx_message (n : nat) (path : string) : text :=
  txt "Wrote " ++ str_of_int (Z.of_nat n) ++ txt " GFX entries to " ++ txt path.

Definition spawn_message (n : nat) (path : string) : text :=
  txt "Wrote " ++ str_of_int (Z.of_nat n) ++ txt " spawn entries to " ++ txt path.


(** ** Worlds to run the script in *)

(** A world to run the script in: the two inputs with a few lines each. *)
Definition sample_gfx_sql : text :=
  txt "-- door graphics" ++ [nl]
  ++ txt "INSERT INTO `door_gfxs` VALUES ('101', 'north door', '2', '-5', '10');"
  ++ [nl] ++ [nl]
  ++ txt "INSERT INTO `door_gfxs` VALUES ('102', 'gate', '0', '3', '-4');"
  ++ [nl].

Definition sample_spawn_sql : text :=
  txt "INSERT INTO `spawnlist_door` VALUES ('1', 'gate', '102', '33000', '32000', '4', '0', '0', '1');"
  ++ [nl].

Definition sample_world : World :=
  {| files := <[gfx_sql := sample_gfx_sql]>
                (<[spawn_sql := sample_spawn_sql]> ∅);
     writable := fun _ => true;
     stdout := [] |}.


(** The sample world with a stale document and earlier output. *)
Definition stale_world : World :=
  {| files := <[gfx_yaml := txt "stale"]> (files sample_world);
     writable := fun _ => true;
     stdout := txt "earlier output" |}.

(** ** Outcomes of a run *)

(** The world once the graphics document is written and reported. *)
Definition gfx_written (w : World) (cg : text) : World :=
  {| files := <[gfx_yaml := gfx_yaml_text (gfx_entries cg)]> (files w);
     writable := writable w;
     stdout := stdout w ++ gfx_message (length (gfx_entries cg)) gfx_yaml
               ++ [nl] |}.

(** The world once the spawn document is written and reported. *)
Definition spawn_written (w : World) (cs : text) : World :=
  {| files := <[spawn_yaml := spawn_yaml_text (spawn_entries cs)]> (files w);
     writable := writable w;
     stdout := stdout w ++ spawn_message (length (spawn_entries cs)) spawn_yaml
               ++ [nl] |}.


(** ** The documents as lines *)

(** A character of one byte in UTF-8. *)
Definition is_ascii (c : char) : bool := c <? 128.

(** The lines of the item of a record. *)
Definition gfx_item_fields (e : Gfx.entry) : list text :=
  [field_line "  - gfxid: " (str_of_int (Gfx.gfxid e));
   field_line "    direction: " (str_of_int (Gfx.direction e));
   field_line "    left_edge_offset: " (str_of_int (Gfx.left_edge_offset e));
   field_line "    right_edge_offset: " (str_of_int (Gfx.right_edge_offset e))].

Definition spawn_item_fields (e : Spawn.entry) : list text :=
  [field_line "  - id: " (str_of_int (Spawn.id e));
   field_line "    gfxid: " (str_of_int (Spawn.gfxid e));
   field_line "    x: " (str_of_int (Spawn.x e));
   field_line "    y: " (str_of_int (Spawn.y e));
   field_line "    map_id: " (str_of_int (Spawn.map_id e));
   field_line "    hp: " (str_of_int (Spawn.hp e));
   field_line "    keeper: " (str_of_int (Spawn.keeper e));
   field_line "    is_opening: "
     (if Spawn.is_opening e then txt "true" else txt "false")].

(** What of a record is written: all but the note, all but the location. *)
Definition gfx_public (e : Gfx.entry) : Z * Z * Z * Z :=
  (Gfx.gfxid e, Gfx.direction e, Gfx.left_edge_offset e,
   Gfx.right_edge_offset e).

Definition spawn_public (e : Spawn.entry) : Z * Z * Z * Z * Z * Z * Z * bool :=
  (Spawn.id e, Spawn.gfxid e, Spawn.x e, Spawn.y e, Spawn.map_id e,
   Spawn.hp e, Spawn.keeper e, Spawn.is_opening e).

(** ** Text around a statement, and line breaks *)


(** [c] is no character of [s]. *)
Definition no_char (c : char) (s : text) : bool :=
  forallb (fun x => negb (x =? c)) s.

(** [s] with each newline written as the line break [br]. *)
Definition with_breaks (br : text) (s : text) : text :=
  flat_map (fun c => if c =? nl then br else [c]) s.

(** The text of a tuple of quoted fields up to the closing quote of the
    last one: the first field, then each further field with the blanks
    in front of its opening quote. *)
Definition open_tuple (f : text) (more : list (text * text)) : text :=
  f ++ concat ((fun p => txt "'," ++ p.1 ++ txt "'" ++ p.2) <$> more)
  ++ txt "'".

(** * Lemmas *)

(** ** Character classes *)

Lemma is_space_chars c : is_space c = true -> In c space_chars.
Proof.
  unfold is_space, space_chars. intros H.
  repeat (apply orb_prop in H; destruct H as [H|H]);
    repeat match goal with
    | H : _ && _ = true |- _ => apply andb_prop in H; destruct H
    | H : (_ <=? _) = true |- _ => apply N.leb_le in H
    | H : (_ =? _) = true |- _ => apply N.eqb_eq in H
    end; simpl; lia.
Qed.

Lemma digit_not_space c : is_digit c = true -> is_space c = false.
Proof.
  intros Hd. destruct (is_space c) eqn:Hs; [|done].
  apply is_space_chars in Hs. unfold space_chars in Hs. simpl in Hs.
  repeat (destruct Hs as [<-|Hs]; [vm_compute in Hd; discriminate|]).
  destruct Hs.
Qed.

Lemma digit_not_int_space c : is_digit c = true -> int_space c = false.
Proof. intros H. unfold int_space. by rewrite (digit_not_space c H). Qed.

Lemma digit_neq c x : is_digit x = false -> is_digit c = true -> c <> x.
Proof. intros Hx Hc ->. congruence. Qed.

Lemma digit_not_quote c : is_digit c = true -> (c =? quote) = false.
Proof. intros H. apply N.eqb_neq. by apply digit_neq. Qed.

Lemma digit_not_minus c : is_digit c = true -> (c =? minus) = false.
Proof. intros H. apply N.eqb_neq. by apply digit_neq. Qed.

Lemma digit_not_plus c : is_digit c = true -> (c =? plus) = false.
Proof. intros H. apply N.eqb_neq. by apply digit_neq. Qed.

Lemma space_not_quote c : is_space c = true -> (c =? quote) = false.
Proof.
  intros H. apply N.eqb_neq. intros ->. vm_compute in H. discriminate.
Qed.

Lemma is_digit_value c : is_digit c = true -> exists d, digit_value c = Some d.
Proof. unfold is_digit. destruct (digit_value c); [eauto|done]. Qed.

Lemma digit_str_cons c s : digit_str (c :: s) = is_digit c && forallb is_digit s.
Proof. done. Qed.

Lemma digit_str_forall s : digit_str s = true -> forallb is_digit s = true.
Proof. by destruct s. Qed.

Lemma free_not_quote x : in_cls (CNot quote) x = true -> x <> quote.
Proof. simpl. intros H ->. done. Qed.

Lemma digit_cls_not_quote x : in_cls CDigit x = true -> x <> quote.
Proof. simpl. intros H. apply N.eqb_neq. by apply digit_not_quote. Qed.

Lemma space_cls_not_quote x : in_cls CSpace x = true -> x <> quote.
Proof. simpl. intros H. apply N.eqb_neq. by apply space_not_quote. Qed.

(** ** The builtins [int] and [str] *)

Lemma int_digits_all s prev acc :
  forallb is_digit s = true -> (prev = true \/ s <> []) ->
  int_digits prev acc s = Some (fold_left dec_step s acc).
Proof.
  revert prev acc. induction s as [|c s IH]; intros prev acc Hall Hne.
  - destruct Hne as [->|?]; done.
  - simpl in Hall. apply andb_prop in Hall as [Hc Hs].
    destruct (is_digit_value c Hc) as [d Hd].
    cbn [int_digits fold_left]. unfold dec_step at 2. rewrite Hd.
    cbn [default]. apply IH; auto.
Qed.

Lemma lstrip_digit c s : int_space c = false -> lstrip (c :: s) = c :: s.
Proof. intros H. simpl. by rewrite H. Qed.

Lemma strip_keep s a b s' :
  s = a :: s' -> last s = Some b -> int_space a = false -> int_space b = false ->
  strip s = s.
Proof.
  intros -> Hl Ha Hb. apply last_Some in Hl as [t Ht].
  unfold strip. rewrite (lstrip_digit a s' Ha), Ht, rev_unit.
  rewrite (lstrip_digit b (rev t) Hb). simpl. by rewrite rev_involutive.
Qed.

Lemma last_forallb (p : char -> bool) c s :
  forallb p (c :: s) = true -> exists b, last (c :: s) = Some b /\ p b = true.
Proof.
  revert c. induction s as [|c' s IH]; intros c H.
  - exists c. simpl in *. by rewrite andb_true_r in H.
  - simpl in H. apply andb_prop in H as [_ H]. destruct (IH c' H) as (b & Hb & Hp).
    exists b. split; [|done]. by rewrite last_cons_cons.
Qed.

Lemma int_of_str_digits s :
  digit_str s = true -> int_of_str s = Ok (dec_value s).
Proof.
  intros H. destruct s as [|c s]; [done|].
  rewrite digit_str_cons in H. change (forallb is_digit (c :: s) = true) in H.
  destruct (last_forallb _ _ _ H) as (b & Hb & Hpb).
  pose proof H as H'. simpl in H'. apply andb_prop in H' as [Hc _].
  unfold int_of_str.
  rewrite (strip_keep (c :: s) c b s eq_refl Hb
             (digit_not_int_space c Hc) (digit_not_int_space b Hpb)).
  rewrite (digit_not_minus c Hc), (digit_not_plus c Hc).
  rewrite (int_digits_all (c :: s) false 0%Z H) by (right; done). done.
Qed.

Lemma int_of_str_signed s :
  signed_str s = true -> int_of_str s = Ok (signed_value s).
Proof.
  intros H. destruct s as [|c s]; [done|]. unfold signed_str, signed_value in *.
  destruct (c =? minus) eqn:Hm; [|by apply int_of_str_digits].
  apply N.eqb_eq in Hm as ->.
  destruct s as [|d s]; [done|]. rewrite digit_str_cons in H.
  change (forallb is_digit (d :: s) = true) in H.
  destruct (last_forallb _ _ _ H) as (b & Hb & Hpb).
  unfold int_of_str.
  rewrite (strip_keep (minus :: d :: s) minus b (d :: s) eq_refl).
  - change (minus =? minus) with true. cbv iota.
    rewrite (int_digits_all (d :: s) false 0%Z H) by (right; done). done.
  - by rewrite last_cons_cons.
  - done.
  - by apply digit_not_int_space.
Qed.

Lemma dec_value_fold s : dec_value s = fold_left dec_step s 0%Z.
Proof. reflexivity. Qed.

Lemma uint_text_acc d : forall p,
  fold_left dec_step (uint_text d) (Z.pos p) = Z.pos (Pos.of_uint_acc d p).
Proof.
  induction d as [|d IH|d IH|d IH|d IH|d IH|d IH|d IH|d IH|d IH|d IH];
    intros p; cbn [uint_text fold_left Pos.of_uint_acc]; [reflexivity|..];
    rewrite <- IH; f_equal; unfold dec_step;
    match goal with
    | |- context [digit_value ?c] =>
        let v := eval vm_compute in (digit_value c) in
        change (digit_value c) with v
    end; cbn [default]; unfold id; lia.
Qed.

Lemma uint_text_value d : dec_value (uint_text d) = Z.of_uint d.
Proof.
  rewrite dec_value_fold. unfold Z.of_uint.
  induction d as [|d IH|d IH|d IH|d IH|d IH|d IH|d IH|d IH|d IH|d IH];
    cbn [uint_text fold_left Pos.of_uint]; [reflexivity|exact IH|..];
    apply (uint_text_acc d).
Qed.

Lemma uint_text_head d c s : uint_text d = c :: s -> (c =? minus) = false.
Proof. destruct d; cbn [uint_text]; intros [= <- _]; reflexivity. Qed.

(** The text [str] gives for an integer reads back as that integer. *)
Lemma str_of_int_value z : signed_value (str_of_int z) = z.
Proof.
  rewrite <- (DecimalZ.of_to z) at 2. unfold str_of_int, Z.of_int.
  destruct (Z.to_int z) as [d|d].
  - rewrite <- uint_text_value. unfold signed_value.
    destruct (uint_text d) as [|c s] eqn:E; [reflexivity|].
    by rewrite (uint_text_head d c s E).
  - rewrite <- uint_text_value. reflexivity.
Qed.

Lemma uint_text_plain d : forallb plain (uint_text d) = true.
Proof. induction d; cbn [uint_text forallb]; rewrite ?IHd; reflexivity. Qed.

Lemma str_of_int_plain z : forallb plain (str_of_int z) = true.
Proof.
  unfold str_of_int. destruct (Z.to_int z); cbn [forallb];
    rewrite uint_text_plain; reflexivity.
Qed.

Lemma bool_text_plain (b : bool) :
  forallb plain (if b then txt "true" else txt "false") = true.
Proof. by destruct b. Qed.

(** ** The matcher *)

Lemma head_char_rejects r q x s pos mk :
  head_char r = Some q -> x <> q -> match_here r (x :: s) pos mk = None.
Proof.
  revert mk. induction r as [|t r IH]; intros mk Hh Hx; [done|].
  destruct t as [[c| | |c] [| | |]|  |]; simpl in *; try done; auto.
  injection Hh as ->. apply N.eqb_neq in Hx. by rewrite Hx.
Qed.

Lemma match_here_open r s pos mk :
  match_here (GOpen :: r) s pos mk = match_here r s pos (pos :: mk).
Proof. done. Qed.

Lemma match_here_close r s pos mk :
  match_here (GClose :: r) s pos mk = match_here r s pos (pos :: mk).
Proof. done. Qed.

Lemma match_here_opt c r x s pos mk :
  match_here (Atom c Opt :: r) (x :: s) pos mk
  = if in_cls c x then
      match match_here r s (S pos) mk with
      | Some res => Some res
      | None => match_here r (x :: s) pos mk
      end
    else match_here r (x :: s) pos mk.
Proof. done. Qed.

Lemma match_here_star c r s pos mk :
  match_here (Atom c Star :: r) s pos mk = star (in_cls c) (match_here r) s pos mk.
Proof. done. Qed.

Lemma match_here_lit (t : text) r s pos mk :
  match_here (((fun c => Atom (CChar c) Once) <$> t) ++ r) (t ++ s) pos mk
  = match_here r s (pos + length t)%nat mk.
Proof.
  revert pos. induction t as [|c t IH]; intros pos; simpl.
  - f_equal. lia.
  - rewrite N.eqb_refl, IH. f_equal. lia.
Qed.

Lemma match_here_lit_inv (t : text) r s pos mk res :
  match_here (((fun c => Atom (CChar c) Once) <$> t) ++ r) s pos mk = Some res ->
  exists s', s = t ++ s' /\ match_here r s' (pos + length t)%nat mk = Some res.
Proof.
  revert s pos. induction t as [|c t IH]; intros s pos H; simpl in *.
  - exists s. split; [done|]. rewrite <- H. f_equal. lia.
  - destruct s as [|x s]; [done|]. destruct (x =? c) eqn:Hx; [|done].
    apply N.eqb_eq in Hx as ->. destruct (IH _ _ H) as (s' & -> & H').
    exists s'. split; [done|]. rewrite <- H'. f_equal. lia.
Qed.

(** A greedy repetition takes exactly the run of class characters in
    front of [q] when what follows the repetition has to start with [q]
    and [q] is outside the class. *)
Lemma star_det p r ds q s pos mk :
  head_char r = Some q -> (forall x, p x = true -> x <> q) ->
  forallb p ds = true ->
  star p (match_here r) (ds ++ q :: s) pos mk
  = match_here r (q :: s) (pos + length ds)%nat mk.
Proof.
  intros Hh Hp. revert pos. induction ds as [|d ds IH]; intros pos Hall; simpl.
  - destruct (p q) eqn:Hq; [by apply Hp in Hq|]. f_equal. lia.
  - simpl in Hall. apply andb_prop in Hall as [Hd Hall]. rewrite Hd, IH by done.
    replace (S pos + length ds)%nat with (pos + S (length ds))%nat by lia.
    destruct (match_here r (q :: s) _ mk) eqn:E; [done|].
    apply (head_char_rejects r q); auto.
Qed.

Lemma star_inv p (k : cont) s pos mk res :
  star p k s pos mk = Some res ->
  exists ds s', s = ds ++ s' /\ forallb p ds = true
                /\ k s' (pos + length ds)%nat mk = Some res.
Proof.
  revert pos. induction s as [|x s IH]; intros pos H; simpl in H.
  - exists [], []. simpl. rewrite Nat.add_0_r. done.
  - assert (Hhere : k (x :: s) pos mk = Some res ->
      exists ds s', x :: s = ds ++ s' /\ forallb p ds = true
                    /\ k s' (pos + length ds)%nat mk = Some res).
    { intros Hk. exists [], (x :: s). simpl. rewrite Nat.add_0_r. done. }
    destruct (p x) eqn:Hx; [|auto].
    destruct (star p k s (S pos) mk) eqn:E; [|auto].
    injection H as ->. destruct (IH _ E) as (ds & s' & -> & Hall & Hk).
    exists (x :: ds), s'. simpl. rewrite Hx, Hall.
    replace (pos + S (length ds))%nat with (S pos + length ds)%nat by lia. done.
Qed.

Lemma digits_det r ds s pos mk :
  head_char r = Some quote -> digit_str ds = true ->
  match_here (Atom CDigit Plus :: r) (ds ++ quote :: s) pos mk
  = match_here r (quote :: s) (pos + length ds)%nat mk.
Proof.
  intros Hh Hd. destruct ds as [|d ds]; [done|].
  rewrite digit_str_cons in Hd. apply andb_prop in Hd as [Hd Hall].
  cbn [match_here app]. cbn [in_cls]. rewrite Hd.
  rewrite (star_det (in_cls CDigit) r ds quote) by (auto using digit_cls_not_quote).
  f_equal. simpl. lia.
Qed.

Lemma digits_inv r s pos mk res :
  match_here (Atom CDigit Plus :: r) s pos mk = Some res ->
  exists ds s', s = ds ++ s' /\ digit_str ds = true
                /\ match_here r s' (pos + length ds)%nat mk = Some res.
Proof.
  intros H. destruct s as [|x s]; [done|]. cbn [match_here in_cls] in H.
  destruct (is_digit x) eqn:Hx; [|done].
  apply star_inv in H as (ds & s' & -> & Hall & H).
  exists (x :: ds), s'. rewrite digit_str_cons, Hx. cbn [in_cls] in Hall.
  change (forallb (in_cls CDigit) ds) with (forallb is_digit ds) in Hall.
  rewrite Hall. split; [done|]. split; [done|]. rewrite <- H. f_equal. simpl. lia.
Qed.

(** A group of kind [k] in front of a pattern that starts with a quote. *)
Lemma group_det k r f s pos mk :
  head_char r = Some quote -> kind_ok k f = true ->
  match_here (re_group (kind_re k) ++ r) (f ++ quote :: s) pos mk
  = match_here r (quote :: s) (pos + length f)%nat
      ((pos + length f)%nat :: pos :: mk).
Proof.
  intros Hh Hok. destruct k; simpl in Hok.
  - change (re_group (kind_re KDigits) ++ r)
      with (GOpen :: Atom CDigit Plus :: GClose :: r).
    rewrite match_here_open, digits_det by done. apply match_here_close.
  - change (re_group (kind_re KSigned) ++ r)
      with (GOpen :: Atom (CChar minus) Opt :: Atom CDigit Plus :: GClose :: r).
    destruct f as [|c f]; [done|]. unfold signed_str in Hok.
    change ((c :: f) ++ quote :: s) with (c :: (f ++ quote :: s)).
    rewrite match_here_open, match_here_opt.
    change (in_cls (CChar minus) c) with (c =? minus).
    destruct (c =? minus) eqn:Hc.
    + apply N.eqb_eq in Hc as ->.
      rewrite (digits_det (GClose :: r) f s (S pos) (pos :: mk)) by done.
      rewrite match_here_close.
      replace (S pos + length f)%nat with (pos + length (minus :: f))%nat
        by (simpl; lia).
      destruct (match_here r (quote :: s) _ _) eqn:E; [done|].
      destruct f as [|d f]; [done|]. done.
    + change (c :: f ++ quote :: s) with ((c :: f) ++ quote :: s).
      rewrite (digits_det (GClose :: r) (c :: f) s pos (pos :: mk)) by done.
      apply match_here_close.
  - change (re_group (kind_re KFree) ++ r)
      with (GOpen :: Atom (CNot quote) Star :: GClose :: r).
    rewrite match_here_open, match_here_star.
    rewrite (star_det (in_cls (CNot quote)) (GClose :: r) f quote)
      by (auto using free_not_quote).
    apply match_here_close.
Qed.

Lemma group_inv k r s pos mk res :
  match_here (re_group (kind_re k) ++ r) s pos mk = Some res ->
  exists f s', s = f ++ s' /\ kind_ok k f = true
               /\ match_here r s' (pos + length f)%nat
                    ((pos + length f)%nat :: pos :: mk) = Some res.
Proof.
  intros H. destruct k.
  - change (re_group (kind_re KDigits) ++ r)
      with (GOpen :: Atom CDigit Plus :: GClose :: r) in H.
    rewrite match_here_open in H.
    apply digits_inv in H as (ds & s' & -> & Hd & H).
    exists ds, s'. done.
  - change (re_group (kind_re KSigned) ++ r)
      with (GOpen :: Atom (CChar minus) Opt :: Atom CDigit Plus :: GClose :: r) in H.
    rewrite match_here_open in H.
    assert (Hplain : match_here (Atom CDigit Plus :: GClose :: r) s pos (pos :: mk)
                     = Some res ->
      exists f s', s = f ++ s' /\ kind_ok KSigned f = true
        /\ match_here r s' (pos + length f)%nat
             ((pos + length f)%nat :: pos :: mk) = Some res).
    { intros H'. apply digits_inv in H' as (ds & s' & -> & Hd & H').
      exists ds, s'. split; [done|]. split; [|done].
      destruct ds as [|d ds]; [done|]. simpl. unfold signed_str.
      pose proof Hd as Hd'.
      rewrite digit_str_cons in Hd'. apply andb_prop in Hd' as [Hd' _].
      by rewrite (digit_not_minus d Hd'). }
    destruct s as [|x s]; [auto|]. rewrite match_here_opt in H.
    change (in_cls (CChar minus) x) with (x =? minus) in H.
    destruct (x =? minus) eqn:Hx; [|auto].
    destruct (match_here (Atom CDigit Plus :: GClose :: r) s (S pos) (pos :: mk))
      eqn:E; [|auto].
    injection H as ->. apply N.eqb_eq in Hx as ->.
    apply digits_inv in E as (ds & s' & -> & Hd & E).
    exists (minus :: ds), s'. split; [done|]. split; [done|].
    rewrite match_here_close in E. rewrite <- E. simpl.
    replace (pos + S (length ds))%nat with (S pos + length ds)%nat by lia. done.
  - change (re_group (kind_re KFree) ++ r)
      with (GOpen :: Atom (CNot quote) Star :: GClose :: r) in H.
    rewrite match_here_open, match_here_star in H.
    apply star_inv in H as (ds & s' & -> & Hall & H).
    exists ds, s'. done.
Qed.

Lemma sep_det r ws s pos mk :
  blank_str ws = true ->
  match_here (re_sep ++ r) (sep_text ws ++ s) pos mk
  = match_here r s (pos + length (sep_text ws))%nat mk.
Proof.
  intros Hws. unfold sep_text.
  change (re_sep ++ r)
    with (Atom (CChar quote) Once :: Atom (CChar comma) Once
          :: Atom CSpace Star :: Atom (CChar quote) Once :: r).
  change ((quote :: comma :: ws ++ [quote]) ++ s)
    with (quote :: comma :: ((ws ++ [quote]) ++ s)).
  rewrite <- app_assoc. change ([quote] ++ s) with (quote :: s).
  cbn [match_here in_cls]. rewrite !N.eqb_refl.
  rewrite (star_det (in_cls CSpace) (Atom (CChar quote) Once :: r) ws quote)
    by (auto using space_cls_not_quote).
  cbn [match_here in_cls]. rewrite N.eqb_refl. f_equal.
  simpl. rewrite length_app. simpl. lia.
Qed.

Lemma sep_inv r s pos mk res :
  match_here (re_sep ++ r) s pos mk = Some res ->
  exists ws s', s = sep_text ws ++ s' /\ blank_str ws = true
                /\ match_here r s' (pos + length (sep_text ws))%nat mk = Some res.
Proof.
  change (re_sep ++ r)
    with (Atom (CChar quote) Once :: Atom (CChar comma) Once
          :: Atom CSpace Star :: Atom (CChar quote) Once :: r).
  intros H. cbn [match_here in_cls] in H.
  destruct s as [|x s]; [done|]. destruct (x =? quote) eqn:Hx; [|done].
  destruct s as [|y s]; [done|]. destruct (y =? comma) eqn:Hy; [|done].
  apply N.eqb_eq in Hx as ->, Hy as ->.
  apply star_inv in H as (ws & s' & -> & Hall & H).
  cbn [match_here in_cls] in H.
  destruct s' as [|z s']; [done|]. destruct (z =? quote) eqn:Hz; [|done].
  apply N.eqb_eq in Hz as ->.
  exists ws, s'. split; [|split; [done|]].
  - unfold sep_text. simpl. by rewrite <- app_assoc.
  - rewrite <- H. f_equal. unfold sep_text. simpl. rewrite length_app. simpl. lia.
Qed.

Lemma sep_text_app ws (s : text) :
  sep_text ws ++ s = quote :: (comma :: ws ++ quote :: s).
Proof. unfold sep_text. simpl. by rewrite <- app_assoc. Qed.

Lemma head_char_sep r : head_char (re_sep ++ r) = Some quote.
Proof. done. Qed.

(** ** Tuples and statements *)

Lemma tuple_det ks : forall k f more r s pos mk,
  head_char r = Some quote -> tuple_ok k ks f more = true ->
  match_here (tuple_re k ks ++ r) (tuple_text f more ++ quote :: s) pos mk
  = match_here r (quote :: s) (pos + length (tuple_text f more))%nat
      (add_marks (tuple_spans pos f more) mk).
Proof.
  induction ks as [|k' ks IH]; intros k f more r s pos mk Hh Hok;
    cbn [tuple_ok] in Hok; apply andb_prop in Hok as [Hf Hok].
  - destruct more; [|done]. cbn [tuple_re tuple_text tuple_spans add_marks].
    rewrite !app_nil_r. by apply group_det.
  - destruct more as [|[ws f'] more]; [done|].
    apply andb_prop in Hok as [Hws Hok].
    cbn [tuple_re tuple_text tuple_spans add_marks].
    rewrite <- !app_assoc. rewrite sep_text_app.
    rewrite group_det by (done || apply head_char_sep).
    rewrite <- sep_text_app, sep_det by done.
    rewrite IH by done. f_equal.
    rewrite !length_app. lia.
Qed.

Lemma tuple_inv ks : forall k r s pos mk res,
  match_here (tuple_re k ks ++ r) s pos mk = Some res ->
  exists f more s',
    s = tuple_text f more ++ s' /\ tuple_ok k ks f more = true
    /\ match_here r s' (pos + length (tuple_text f more))%nat
         (add_marks (tuple_spans pos f more) mk) = Some res.
Proof.
  induction ks as [|k' ks IH]; intros k r s pos mk res H;
    cbn [tuple_re] in H; rewrite <- ?app_assoc in H.
  - apply group_inv in H as (f & s' & -> & Hf & H).
    exists f, [], s'. cbn [tuple_text tuple_ok tuple_spans add_marks].
    rewrite !app_nil_r, Hf. done.
  - apply group_inv in H as (f & s1 & -> & Hf & H).
    apply sep_inv in H as (ws & s2 & -> & Hws & H).
    apply IH in H as (f' & more & s' & -> & Hok & H).
    exists f, ((ws, f') :: more), s'.
    cbn [tuple_text tuple_ok tuple_spans add_marks].
    rewrite Hf, Hws, Hok, <- !app_assoc. split; [done|]. split; [done|].
    rewrite <- H. f_equal. rewrite !length_app. lia.
Qed.

Lemma rev_add_marks spans mk : rev (add_marks spans mk) = rev mk ++ flat spans.
Proof.
  revert mk. induction spans as [|[a b] spans IH]; intros mk; simpl.
  - by rewrite app_nil_r.
  - rewrite IH. simpl. by rewrite <- !app_assoc.
Qed.

Lemma pairs_flat spans : pairs (flat spans) = spans.
Proof. induction spans as [|[a b] spans IH]; simpl; congruence. Qed.

Lemma pairs_add_marks spans : pairs (rev (add_marks spans [])) = spans.
Proof. rewrite rev_add_marks. apply pairs_flat. Qed.

Lemma slice_app (pre x post : text) :
  slice (length pre) (length pre + length x) (pre ++ x ++ post) = x.
Proof.
  unfold slice. rewrite drop_app_length.
  replace (length pre + length x - length pre)%nat with (length x) by lia.
  apply take_app_length.
Qed.

Lemma tuple_slices more : forall f pre post,
  span_text (pre ++ tuple_text f more ++ post) <$> tuple_spans (length pre) f more
  = f :: more.*2.
Proof.
  induction more as [|[ws f'] more IH]; intros f pre post;
    cbn [tuple_text tuple_spans fmap list_fmap].
  - unfold span_text. simpl. rewrite app_nil_r. by rewrite slice_app.
  - f_equal.
    + unfold span_text. simpl. rewrite <- app_assoc. by rewrite slice_app.
    + specialize (IH f' (pre ++ f ++ sep_text ws) post).
      rewrite !length_app in IH. rewrite Nat.add_assoc in IH.
      rewrite <- !app_assoc in IH. rewrite <- !app_assoc. exact IH.
Qed.


Lemma stmt_inv head k ks s pos e mk :
  match_here (stmt_re head k ks) s pos [] = Some (e, mk) ->
  exists f more rest,
    s = stmt_text head f more ++ rest /\ tuple_ok k ks f more = true
    /\ e = (pos + length (stmt_text head f more))%nat
    /\ mk = add_marks (tuple_spans (pos + length (txt head)) f more) [].
Proof.
  unfold stmt_re, stmt_text, re_lit. intros H.
  apply match_here_lit_inv in H as (s1 & -> & H).
  apply tuple_inv in H as (f & more & s2 & -> & Hok & H).
  rewrite <- (app_nil_r (_ <$> txt "');")) in H.
  apply match_here_lit_inv in H as (rest & -> & H).
  cbn [match_here] in H. injection H as <- <-.
  exists f, more, rest. rewrite <- !app_assoc. split; [done|]. split; [done|].
  split; [|done]. rewrite !length_app. simpl length. lia.
Qed.

(** ** Searching a line *)

Lemma search_from_inv r line s pos m :
  search_from r line s pos = Some m ->
  exists pre s' e mk,
    s = pre ++ s'
    /\ match_here r s' (pos + length pre)%nat [] = Some (e, mk)
    /\ m = {| m_string := line;
              m_regs := ((pos + length pre)%nat, e) :: pairs (rev mk) |}.
Proof.
  revert pos. induction s as [|x s IH]; intros pos H; simpl in H.
  - destruct (match_here r [] pos []) as [[e mk]|] eqn:E; [|done].
    injection H as <-. exists [], [], e, mk. simpl. rewrite Nat.add_0_r. done.
  - destruct (match_here r (x :: s) pos []) as [[e mk]|] eqn:E.
    + injection H as <-. exists [], (x :: s), e, mk. simpl.
      rewrite Nat.add_0_r. done.
    + apply IH in H as (pre & s' & e & mk & -> & Hm & ->).
      exists (x :: pre), s', e, mk. simpl.
      replace (pos + S (length pre))%nat with (S pos + length pre)%nat by lia.
      done.
Qed.


Lemma search_from_none r line s pos :
  (forall pre s', s = pre ++ s' ->
     match_here r s' (pos + length pre)%nat [] = None) ->
  search_from r line s pos = None.
Proof.
  revert pos. induction s as [|x s IH]; intros pos H.
  - simpl. specialize (H [] [] eq_refl). simpl in H.
    rewrite Nat.add_0_r in H. by rewrite H.
  - simpl. pose proof (H [] (x :: s) eq_refl) as H0. simpl in H0.
    rewrite Nat.add_0_r in H0. rewrite H0. apply IH.
    intros pre s' ->. specialize (H (x :: pre) s' eq_refl). simpl in H.
    by replace (S pos + length pre)%nat with (pos + S (length pre))%nat by lia.
Qed.

Lemma group_lookup m k :
  group m (S k) = match groups m !! k with
                  | Some g => Ok g
                  | None => Raise IndexError
                  end.
Proof.
  unfold group, groups. destruct (m_regs m) as [|whole regs]; simpl; [done|].
  rewrite list_lookup_fmap. by destruct (regs !! k) as [[a b]|].
Qed.

(** A match of a statement pattern: where it is and what its groups are. *)
Lemma search_stmt_inv head k ks line m :
  search (stmt_re head k ks) line = Some m ->
  exists pre f more rest,
    line = pre ++ stmt_text head f more ++ rest
    /\ tuple_ok k ks f more = true
    /\ m_string m = line
    /\ groups m = f :: more.*2.
Proof.
  intros H. apply search_from_inv in H as (pre & s' & e & mk & -> & H & ->).
  apply stmt_inv in H as (f & more & rest & -> & Hok & -> & ->).
  exists pre, f, more, rest. split; [done|]. split; [done|]. split; [done|].
  unfold groups. cbn [m_regs m_string tail]. rewrite pairs_add_marks.
  unfold stmt_text. rewrite <- !app_assoc.
  pose proof (tuple_slices more f (pre ++ txt head) (txt "');" ++ rest)) as Hs.
  rewrite length_app in Hs. simpl in Hs. rewrite <- !app_assoc in Hs.
  exact Hs.
Qed.


Lemma starts_with_app p s : starts_with p (p ++ s) = true.
Proof. induction p as [|a p IH]; [done|]. simpl. by rewrite N.eqb_refl, IH. Qed.

Lemma occurs_app pre p s : occurs p (pre ++ p ++ s) = true.
Proof.
  induction pre as [|a pre IH].
  - cbn [app]. destruct (p ++ s) eqn:E; cbn [occurs];
      by rewrite <- E, starts_with_app.
  - cbn [app occurs]. by rewrite IH, orb_true_r.
Qed.

(** A statement pattern matches only where the head of the statement is. *)
Lemma stmt_no_later_match head k ks (line pre s' : text) pos :
  occurs (txt head) (drop 1 line) = false ->
  line = pre ++ s' -> pre <> [] ->
  match_here (stmt_re head k ks) s' pos [] = None.
Proof.
  intros Hocc -> Hpre.
  destruct (match_here (stmt_re head k ks) s' pos []) as [res|] eqn:E; [|done].
  unfold stmt_re, re_lit in E.
  apply match_here_lit_inv in E as (s'' & -> & _).
  destruct pre as [|x pre]; [done|]. cbn [app drop] in Hocc.
  rewrite drop_0 in Hocc. by rewrite occurs_app in Hocc.
Qed.

(** ** The two patterns and their dictionaries *)

Lemma gfx_pattern_stmt : gfx_pattern = stmt_re gfx_head KDigits gfx_kinds.
Proof. reflexivity. Qed.

Lemma spawn_pattern_stmt : spawn_pattern = stmt_re spawn_head KDigits spawn_kinds.
Proof. reflexivity. Qed.

Lemma tuple_text_concat more : forall f (tl : text),
  tuple_text f more ++ tl
  = f ++ concat ((fun p => txt "'," ++ p.1 ++ txt "'" ++ p.2) <$> more) ++ tl.
Proof.
  induction more as [|[ws f'] more IH]; intros f tl; cbn [tuple_text].
  - simpl. rewrite app_nil_r. reflexivity.
  - rewrite <- !app_assoc, IH. cbn [fmap list_fmap concat fst snd].
    unfold sep_text. simpl. by rewrite <- !app_assoc.
Qed.

Lemma gfx_line_stmt g ws1 n ws2 d ws3 l ws4 r :
  gfx_line g ws1 n ws2 d ws3 l ws4 r
  = stmt_text gfx_head g [(ws1, n); (ws2, d); (ws3, l); (ws4, r)].
Proof.
  unfold gfx_line, stmt_text, gfx_head. rewrite tuple_text_concat.
  cbn [fmap list_fmap concat fst snd]. rewrite <- !app_assoc. reflexivity.
Qed.

Lemma spawn_line_stmt i ws1 loc rest :
  spawn_line i ws1 loc rest = stmt_text spawn_head i ((ws1, loc) :: rest).
Proof.
  unfold spawn_line, stmt_text, spawn_head. rewrite tuple_text_concat.
  cbn [fmap list_fmap concat fst snd]. rewrite <- !app_assoc. reflexivity.
Qed.

Lemma gfx_entry_groups m g n d l r :
  groups m = [g; n; d; l; r] ->
  digit_str g = true -> digit_str d = true ->
  signed_str l = true -> signed_str r = true ->
  gfx_entry m
  = Ok {| Gfx.gfxid := dec_value g; Gfx.note := n;
          Gfx.direction := dec_value d;
          Gfx.left_edge_offset := signed_value l;
          Gfx.right_edge_offset := signed_value r |}.
Proof.
  intros Hg Hdg Hdd Hsl Hsr. unfold gfx_entry.
  rewrite !group_lookup, Hg. cbn [lookup list_lookup].
  pose proof (int_of_str_digits g Hdg) as E1.
  pose proof (int_of_str_digits d Hdd) as E2.
  pose proof (int_of_str_signed l Hsl) as E3.
  pose proof (int_of_str_signed r Hsr) as E4.
  repeat (cbn [mbind result_bind mret result_ret];
          rewrite ?E1, ?E2, ?E3, ?E4).
  reflexivity.
Qed.

Lemma spawn_entry_groups m i loc g x y mp h k o :
  groups m = [i; loc; g; x; y; mp; h; k; o] ->
  digit_str i = true -> digit_str g = true -> digit_str x = true ->
  digit_str y = true -> digit_str mp = true -> digit_str h = true ->
  digit_str k = true ->
  spawn_entry m
  = Ok {| Spawn.id := dec_value i; Spawn.location := loc;
          Spawn.gfxid := dec_value g; Spawn.x := dec_value x;
          Spawn.y := dec_value y; Spawn.map_id := dec_value mp;
          Spawn.hp := dec_value h; Spawn.keeper := dec_value k;
          Spawn.is_opening := bool_decide (o = txt "1") |}.
Proof.
  intros Hg Hi Hgf Hx Hy Hmp Hh Hk. unfold spawn_entry.
  rewrite !group_lookup, Hg. cbn [lookup list_lookup].
  apply int_of_str_digits in Hi, Hgf, Hx, Hy, Hmp, Hh, Hk.
  repeat (cbn [mbind result_bind mret result_ret];
          rewrite ?Hi, ?Hgf, ?Hx, ?Hy, ?Hmp, ?Hh, ?Hk).
  reflexivity.
Qed.

Ltac split_ok H :=
  repeat match type of H with
  | _ && _ = true => let H' := fresh "Hok" in apply andb_prop in H as [H' H]
  end.

(** What a match of the graphics pattern looks like. *)
Lemma gfx_match_shape line m :
  search gfx_pattern line = Some m ->
  exists pre g ws1 n ws2 d ws3 l ws4 r rest,
    line = pre ++ gfx_line g ws1 n ws2 d ws3 l ws4 r ++ rest
    /\ digit_str g = true /\ free_str n = true /\ digit_str d = true
    /\ signed_str l = true /\ signed_str r = true
    /\ blank_str ws1 = true /\ blank_str ws2 = true
    /\ blank_str ws3 = true /\ blank_str ws4 = true
    /\ groups m = [g; n; d; l; r].
Proof.
  rewrite gfx_pattern_stmt. intros H.
  apply search_stmt_inv in H as (pre & g & more & rest & -> & Hok & _ & Hg).
  unfold gfx_kinds in Hok.
  destruct more as [|[ws1 n] [|[ws2 d] [|[ws3 l] [|[ws4 r] [|? ?]]]]];
    cbn [tuple_ok] in Hok; rewrite ?andb_false_r in Hok; try discriminate.
  split_ok Hok. cbn [kind_ok] in *.
  exists pre, g, ws1, n, ws2, d, ws3, l, ws4, r, rest.
  rewrite gfx_line_stmt. repeat (split; [done|]). exact Hg.
Qed.

(** What a match of the spawn pattern looks like. *)
Lemma spawn_match_shape line m :
  search spawn_pattern line = Some m ->
  exists pre i ws1 loc ws2 g ws3 x ws4 y ws5 mp ws6 h ws7 k ws8 o rest,
    line = pre ++ spawn_line i ws1 loc
             [(ws2, g); (ws3, x); (ws4, y); (ws5, mp); (ws6, h); (ws7, k);
              (ws8, o)] ++ rest
    /\ free_str loc = true
    /\ Forall (fun f => digit_str f = true) [i; g; x; y; mp; h; k; o]
    /\ Forall (fun ws => blank_str ws = true)
         [ws1; ws2; ws3; ws4; ws5; ws6; ws7; ws8]
    /\ groups m = [i; loc; g; x; y; mp; h; k; o].
Proof.
  rewrite spawn_pattern_stmt. intros H.
  apply search_stmt_inv in H as (pre & i & more & rest & -> & Hok & _ & Hg).
  unfold spawn_kinds in Hok.
  destruct more as [|[ws1 loc] [|[ws2 g] [|[ws3 x] [|[ws4 y] [|[ws5 mp]
    [|[ws6 h] [|[ws7 k] [|[ws8 o] [|? ?]]]]]]]]];
    cbn [tuple_ok] in Hok; rewrite ?andb_false_r in Hok; try discriminate.
  split_ok Hok. cbn [kind_ok] in *.
  exists pre, i, ws1, loc, ws2, g, ws3, x, ws4, y, ws5, mp, ws6, h, ws7, k,
    ws8, o, rest.
  rewrite spawn_line_stmt. split; [done|]. split; [done|].
  split; [by repeat constructor|]. split; [by repeat constructor|]. exact Hg.
Qed.

(** Every match gives a dictionary: no conversion fails. *)
Lemma gfx_entry_total line m :
  search gfx_pattern line = Some m -> exists e, gfx_entry m = Ok e.
Proof.
  intros H.
  apply gfx_match_shape in H
    as (pre & g & ws1 & n & ws2 & d & ws3 & l & ws4 & r & rest & _ & Hg & _
        & Hd & Hl & Hr & _ & _ & _ & _ & Hgr).
  eexists. by apply (gfx_entry_groups m g n d l r).
Qed.

Lemma spawn_entry_total line m :
  search spawn_pattern line = Some m -> exists e, spawn_entry m = Ok e.
Proof.
  intros H.
  apply spawn_match_shape in H
    as (pre & i & ws1 & loc & ws2 & g & ws3 & x & ws4 & y & ws5 & mp & ws6 & h
        & ws7 & k & ws8 & o & rest & _ & _ & Hd & _ & Hgr).
  eexists. apply (spawn_entry_groups m i loc g x y mp h k o Hgr);
    repeat match goal with
    | H : Forall _ (_ :: _) |- _ => apply Forall_cons in H as [? H]
    end; done.
Qed.

(** Lines of the four kinds that do not match. *)
Lemma malformed_lines_unmatched :
  Forall (fun l => search gfx_pattern l = None /\ search spawn_pattern l = None)
    [ [nl];
      txt "-- INSERT INTO `door_gfxs` VALUES" ++ [nl];
      txt "INSERT INTO `door_gfxs` VALUES ('101', 'north door', '2', '-5');";
      txt "INSERT INTO `door_gfxs` VALUES (101, 'north door', 2, -5, 10);";
      txt "INSERT INTO `spawnlist_door` VALUES ('1', 'gate', '102', '33000', '32000', '4', '0', '0');";
      txt "INSERT INTO `spawnlist_door` VALUES ('1', 'gate', '102', '33000', '32000', '4', '0', '0', 1);" ].
Proof. repeat constructor; vm_compute; reflexivity. Qed.

(** A line holding two statements gives the record of the first. *)
Lemma first_match_on_line :
  parse_gfx_lines
    [scenario_line
     ++ txt " INSERT INTO `door_gfxs` VALUES ('102', 'gate', '0', '3', '-4');"]
  = parse_gfx_lines [scenario_line].
Proof. vm_compute. reflexivity. Qed.

(** Digits of other scripts are digits to [\d] and to [int], and blanks
    other than the space are blanks to [\s]. *)
Lemma unicode_digits_and_blanks :
  parse_gfx_lines
    [txt "INSERT INTO `door_gfxs` VALUES ('" ++ [1633; 1632] ++ txt "',"
     ++ [9; 160] ++ txt "'', '" ++ [65303] ++ txt "', '-" ++ [2409]
     ++ txt "', '4');"]
  = Ok [{| Gfx.gfxid := 10; Gfx.note := []; Gfx.direction := 7;
           Gfx.left_edge_offset := -3; Gfx.right_edge_offset := 4 |}].
Proof. vm_compute. reflexivity. Qed.

(** ** Apostrophes in the free-text field *)

(** Where the free text of the second field stops at an apostrophe that
    no comma follows, the pattern does not match. *)
Lemma apostrophe_no_match_here head k ks (g ws1 n1 tail : text) pos :
  digit_str g = true -> blank_str ws1 = true -> free_str n1 = true ->
  starts_with [comma] tail = false ->
  match_here (stmt_re head KDigits (KFree :: k :: ks))
    (txt head ++ g ++ sep_text ws1 ++ n1 ++ quote :: tail) pos [] = None.
Proof.
  intros Hg Hws Hn Htail. unfold stmt_re, re_lit.
  rewrite match_here_lit. cbn [tuple_re]. rewrite <- !app_assoc.
  rewrite sep_text_app.
  rewrite (group_det KDigits) by (done || apply head_char_sep).
  rewrite <- sep_text_app, sep_det by done.
  rewrite (group_det KFree) by (done || apply head_char_sep).
  change (re_sep ++ ?r)
    with (Atom (CChar quote) Once :: Atom (CChar comma) Once
          :: Atom CSpace Star :: Atom (CChar quote) Once :: r).
  cbn [match_here in_cls]. rewrite N.eqb_refl.
  destruct tail as [|c tail]; [done|].
  cbn [starts_with] in Htail. rewrite andb_true_r, N.eqb_sym in Htail.
  by rewrite Htail.
Qed.

Lemma apostrophe_no_match head k ks (g ws1 n1 tail : text) :
  digit_str g = true -> blank_str ws1 = true -> free_str n1 = true ->
  starts_with [comma] tail = false ->
  occurs (txt head)
    (drop 1 (txt head ++ g ++ sep_text ws1 ++ n1 ++ quote :: tail)) = false ->
  search (stmt_re head KDigits (KFree :: k :: ks))
    (txt head ++ g ++ sep_text ws1 ++ n1 ++ quote :: tail) = None.
Proof.
  intros Hg Hws Hn Htail Hocc. unfold search. apply search_from_none.
  intros pre s' Heq. destruct pre as [|x pre].
  - simpl in Heq. rewrite <- Heq. by apply apostrophe_no_match_here.
  - by apply (stmt_no_later_match head _ _ _ (x :: pre) s' _ Hocc Heq).
Qed.

Lemma starts_with_comma_app (n2 : text) ws (s : text) :
  starts_with [comma] n2 = false ->
  starts_with [comma] (n2 ++ txt "'," ++ ws ++ s) = false.
Proof. by destruct n2. Qed.

Lemma gfx_line_apostrophe g ws1 n1 n2 ws2 d ws3 l ws4 r (rest : text) :
  gfx_line g ws1 (n1 ++ quote :: n2) ws2 d ws3 l ws4 r ++ rest
  = txt gfx_head ++ g ++ sep_text ws1 ++ n1
    ++ quote :: (n2 ++ txt "'," ++ ws2
                 ++ (txt "'" ++ d ++ txt "'," ++ ws3 ++ txt "'" ++ l
                     ++ txt "'," ++ ws4 ++ txt "'" ++ r ++ txt "');" ++ rest)).
Proof.
  unfold gfx_line, gfx_head, sep_text. rewrite <- !app_assoc.
  cbn [app]. rewrite <- !app_assoc. reflexivity.
Qed.

Lemma spawn_line_apostrophe i ws1 n1 n2 more (rest : text) :
  spawn_line i ws1 (n1 ++ quote :: n2) more ++ rest
  = txt spawn_head ++ i ++ sep_text ws1 ++ n1
    ++ quote :: (n2 ++ concat ((fun p => txt "'," ++ p.1 ++ txt "'" ++ p.2)
                               <$> more) ++ txt "');" ++ rest).
Proof.
  unfold spawn_line, spawn_head, sep_text. rewrite <- !app_assoc.
  cbn [app]. rewrite <- !app_assoc. reflexivity.
Qed.

Lemma starts_with_comma_spawn (n2 : text) more (s : text) :
  starts_with [comma] n2 = false ->
  starts_with [comma]
    (n2 ++ concat ((fun p => txt "'," ++ p.1 ++ txt "'" ++ p.2) <$> more)
     ++ txt "');" ++ s) = false.
Proof. destruct n2; [|done]. by destruct more. Qed.

(** ** The scan of the lines *)

Section Scan.
Context {E : Type} (pattern : regex) (entry : Match -> result E).
Hypothesis entry_total :
  forall line m, search pattern line = Some m -> exists e, entry m = Ok e.

Lemma scan_lines_omap lines : forall entries,
  scan_lines pattern entry entries lines
  = Ok (entries ++ omap (line_entry pattern entry) lines).
Proof.
  induction lines as [|line lines IH]; intros entries; cbn [scan_lines omap list_omap].
  - by rewrite app_nil_r.
  - unfold scan_line, line_entry.
    destruct (search pattern line) as [m|] eqn:Hs.
    + destruct (entry_total line m Hs) as [e He]. rewrite He.
      cbn. rewrite IH. by rewrite <- app_assoc.
    + cbn. apply IH.
Qed.




End Scan.


Lemma parse_gfx_lines_omap lines :
  parse_gfx_lines lines = Ok (omap gfx_of_line lines).
Proof. apply (scan_lines_omap _ _ gfx_entry_total). Qed.

Lemma parse_spawn_lines_omap lines :
  parse_spawn_lines lines = Ok (omap spawn_of_line lines).
Proof. apply (scan_lines_omap _ _ spawn_entry_total). Qed.

(** ** The emitters *)

Lemma fold_left_items {E} (write : text -> E -> text) (es : list E) :
  (forall buf e, write buf e = buf ++ write [] e) ->
  forall buf, fold_left write es buf = buf ++ concat (write [] <$> es).
Proof.
  intros Hw. induction es as [|e es IH]; intros buf; cbn [fold_left fmap list_fmap concat].
  - by rewrite app_nil_r.
  - rewrite IH, (Hw buf e). by rewrite <- app_assoc.
Qed.

Lemma gfx_write_item buf e : gfx_write buf e = buf ++ gfx_item e.
Proof. reflexivity. Qed.

Lemma spawn_write_item buf e : spawn_write buf e = buf ++ spawn_item e.
Proof. reflexivity. Qed.

Lemma gfx_yaml_text_items es :
  gfx_yaml_text es = (txt "door_gfxs:" ++ [nl]) ++ concat (gfx_item <$> es).
Proof. apply (fold_left_items gfx_write es gfx_write_item). Qed.

Lemma spawn_yaml_text_items es :
  spawn_yaml_text es = (txt "doors:" ++ [nl]) ++ concat (spawn_item <$> es).
Proof. apply (fold_left_items spawn_write es spawn_write_item). Qed.

(** ** The lines of the documents *)

Lemma lines_from_line l : forall cur rest,
  forallb plain l = true ->
  lines_from cur (l ++ nl :: rest) = (rev cur ++ l ++ [nl]) :: lines_from [] rest.
Proof.
  induction l as [|c l IH]; intros cur rest Hl.
  - reflexivity.
  - cbn [forallb] in Hl. apply andb_prop in Hl as [Hc Hl].
    unfold plain in Hc. apply andb_prop in Hc as [Hn Hr].
    apply negb_true_iff in Hn, Hr.
    cbn [app lines_from]. rewrite Hn, Hr, IH by done.
    cbn [rev]. by rewrite <- !app_assoc.
Qed.

Lemma field_line_lines label v rest :
  forallb plain (txt label) = true -> forallb plain v = true ->
  lines_from [] (field_line label v ++ rest)
  = field_line label v :: lines_from [] rest.
Proof.
  intros Hl Hv. unfold field_line.
  replace ((txt label ++ v ++ [nl]) ++ rest)
    with ((txt label ++ v) ++ nl :: rest) by (by rewrite <- !app_assoc).
  rewrite lines_from_line by (by rewrite forallb_app, Hl, Hv).
  by rewrite <- app_assoc.
Qed.

Lemma gfx_item_lines e rest :
  lines_from [] (gfx_item e ++ rest)
  = field_line "  - gfxid: " (str_of_int (Gfx.gfxid e))
    :: field_line "    direction: " (str_of_int (Gfx.direction e))
    :: field_line "    left_edge_offset: " (str_of_int (Gfx.left_edge_offset e))
    :: field_line "    right_edge_offset: "
         (str_of_int (Gfx.right_edge_offset e))
    :: lines_from [] rest.
Proof.
  unfold gfx_item, gfx_write. rewrite app_nil_l, <- !app_assoc.
  by rewrite !field_line_lines by (reflexivity || apply str_of_int_plain).
Qed.

Lemma spawn_item_lines e rest :
  lines_from [] (spawn_item e ++ rest)
  = field_line "  - id: " (str_of_int (Spawn.id e))
    :: field_line "    gfxid: " (str_of_int (Spawn.gfxid e))
    :: field_line "    x: " (str_of_int (Spawn.x e))
    :: field_line "    y: " (str_of_int (Spawn.y e))
    :: field_line "    map_id: " (str_of_int (Spawn.map_id e))
    :: field_line "    hp: " (str_of_int (Spawn.hp e))
    :: field_line "    keeper: " (str_of_int (Spawn.keeper e))
    :: field_line "    is_opening: "
         (if Spawn.is_opening e then txt "true" else txt "false")
    :: lines_from [] rest.
Proof.
  unfold spawn_item, spawn_write. rewrite app_nil_l, <- !app_assoc.
  by rewrite !field_line_lines
    by (reflexivity || apply str_of_int_plain || apply bool_text_plain).
Qed.





(** ** Running the script *)

Lemma parse_gfx_sql_run path w content :
  files w !! path = Some content ->
  parse_gfx_sql path w = (Ok (gfx_entries content), w).
Proof.
  intros H. unfold parse_gfx_sql, read_text, lift, mbind, M_bind.
  by rewrite H, parse_gfx_lines_omap.
Qed.

Lemma parse_spawn_sql_run path w content :
  files w !! path = Some content ->
  parse_spawn_sql path w = (Ok (spawn_entries content), w).
Proof.
  intros H. unfold parse_spawn_sql, read_text, lift, mbind, M_bind.
  by rewrite H, parse_spawn_lines_omap.
Qed.

Lemma write_gfx_yaml_run es path w :
  writable w path = true ->
  write_gfx_yaml es path w
  = (Ok tt, {| files := <[path := gfx_yaml_text es]> (files w);
               writable := writable w;
               stdout := stdout w ++ gfx_message (length es) path ++ [nl] |}).
Proof.
  intros H. unfold write_gfx_yaml, write_text, print, mbind, M_bind.
  by rewrite H.
Qed.

Lemma write_spawn_yaml_run es path w :
  writable w path = true ->
  write_spawn_yaml es path w
  = (Ok tt, {| files := <[path := spawn_yaml_text es]> (files w);
               writable := writable w;
               stdout := stdout w ++ spawn_message (length es) path ++ [nl] |}).
Proof.
  intros H. unfold write_spawn_yaml, write_text, print, mbind, M_bind.
  by rewrite H.
Qed.


(** * The claims *)








(** C4.  The document is the top-level key followed by one item per
    record, in order.  The item of a graphics record is its gfxid,
    direction, left edge offset and right edge offset, in this order, and
    does not depend on the note; the item of a spawn record is its id,
    gfxid, x, y, map id, hp, keeper and is_opening, in this order, and
    does not depend on the location. *)
Theorem emitted_fields :
  (forall es, gfx_yaml_text es
              = (txt "door_gfxs:" ++ [nl]) ++ concat (gfx_item <$> es))
  /\ (forall gfxid note direction left right,
        gfx_item {| Gfx.gfxid := gfxid; Gfx.note := note;
                    Gfx.direction := direction;
                    Gfx.left_edge_offset := left;
                    Gfx.right_edge_offset := right |}
        = txt "  - gfxid: " ++ str_of_int gfxid ++ [nl]
          ++ txt "    direction: " ++ str_of_int direction ++ [nl]
          ++ txt "    left_edge_offset: " ++ str_of_int left ++ [nl]
          ++ txt "    right_edge_offset: " ++ str_of_int right ++ [nl])
  /\ (forall es, spawn_yaml_text es
                 = (txt "doors:" ++ [nl]) ++ concat (spawn_item <$> es))
  /\ (forall id location gfxid x y map_id hp keeper is_opening,
        spawn_item {| Spawn.id := id; Spawn.location := location;
                      Spawn.gfxid := gfxid; Spawn.x := x; Spawn.y := y;
                      Spawn.map_id := map_id; Spawn.hp := hp;
                      Spawn.keeper := keeper;
                      Spawn.is_opening := is_opening |}
        = txt "  - id: " ++ str_of_int id ++ [nl]
          ++ txt "    gfxid: " ++ str_of_int gfxid ++ [nl]
          ++ txt "    x: " ++ str_of_int x ++ [nl]
          ++ txt "    y: " ++ str_of_int y ++ [nl]
          ++ txt "    map_id: " ++ str_of_int map_id ++ [nl]
          ++ txt "    hp: " ++ str_of_int hp ++ [nl]
          ++ txt "    keeper: " ++ str_of_int keeper ++ [nl]
          ++ txt "    is_opening: "
          ++ (if is_opening then txt "true" else txt "false") ++ [nl]).
Proof.
  split; [exact gfx_yaml_text_items|]. split.
  { intros. unfold gfx_item, gfx_write, field_line. cbn [Gfx.gfxid
      Gfx.direction Gfx.left_edge_offset Gfx.right_edge_offset].
    rewrite app_nil_l, <- !app_assoc. reflexivity. }
  split; [exact spawn_yaml_text_items|].
  intros. unfold spawn_item, spawn_write, field_line. cbn [Spawn.id
    Spawn.gfxid Spawn.x Spawn.y Spawn.map_id Spawn.hp Spawn.keeper
    Spawn.is_opening].
  rewrite app_nil_l, <- !app_assoc. reflexivity.
Qed.





(** C7.  The line of the scenario gives the record with gfxid 101,
    direction 2, left edge offset -5 and right edge offset 10 (and the
    note it captured), and that record is emitted as the four lines of
    the scenario under the top-level key. *)
Theorem scenario_gfx_line :
  let e := {| Gfx.gfxid := 101; Gfx.note := txt "north door";
              Gfx.direction := 2; Gfx.left_edge_offset := -5;
              Gfx.right_edge_offset := 10 |} in
  parse_gfx_lines [scenario_line] = Ok [e]
  /\ file_lines (gfx_item e)
     = [txt "  - gfxid: 101" ++ [nl];
        txt "    direction: 2" ++ [nl];
        txt "    left_edge_offset: -5" ++ [nl];
        txt "    right_edge_offset: 10" ++ [nl]]
  /\ gfx_yaml_text [e] = txt "door_gfxs:" ++ [nl] ++ gfx_item e.
Proof. split; [|split]; vm_compute; reflexivity. Qed.





(** C10, as amended.  The note of a graphics record and the location of a
    spawn record never hold a single quote.  A line in the documented
    format whose note, or location, holds an apostrophe gives no record
    when the first apostrophe of the field is not directly followed by a
    comma and the head of the statement occurs nowhere in the line but at
    its start; this holds whatever the fields after it are. *)
Theorem apostrophe_in_free_text :
  (forall line e, gfx_of_line line = Some e -> free_str (Gfx.note e) = true)
  /\ (forall line e,
        spawn_of_line line = Some e -> free_str (Spawn.location e) = true)
  /\ (forall gfxid ws1 n1 n2 ws2 direction ws3 left ws4 right rest,
        let line := gfx_line gfxid ws1 (n1 ++ quote :: n2) ws2 direction ws3
                      left ws4 right ++ rest in
        digit_str gfxid = true -> blank_str ws1 = true ->
        free_str n1 = true -> starts_with [comma] n2 = false ->
        occurs (txt gfx_head) (drop 1 line) = false ->
        search gfx_pattern line = None /\ parse_gfx_lines [line] = Ok [])
  /\ (forall id ws1 n1 n2 more rest,
        let line := spawn_line id ws1 (n1 ++ quote :: n2) more ++ rest in
        digit_str id = true -> blank_str ws1 = true ->
        free_str n1 = true -> starts_with [comma] n2 = false ->
        occurs (txt spawn_head) (drop 1 line) = false ->
        search spawn_pattern line = None /\ parse_spawn_lines [line] = Ok []).
Proof.
  split; [|split; [|split]].
  - intros line e. unfold gfx_of_line, line_entry.
    destruct (search gfx_pattern line) as [m|] eqn:Hs; [|done].
    apply gfx_match_shape in Hs
      as (pre & g & ws1 & n & ws2 & d & ws3 & l & ws4 & r & rest & _ & Hg & Hn
          & Hd & Hl & Hr & _ & _ & _ & _ & Hgr).
    rewrite (gfx_entry_groups m g n d l r) by done. by intros [= <-].
  - intros line e. unfold spawn_of_line, line_entry.
    destruct (search spawn_pattern line) as [m|] eqn:Hs; [|done].
    apply spawn_match_shape in Hs
      as (pre & i & ws1 & loc & ws2 & g & ws3 & x & ws4 & y & ws5 & mp & ws6
          & h & ws7 & k & ws8 & o & rest & _ & Hloc & Hd & _ & Hgr).
    rewrite (spawn_entry_groups m i loc g x y mp h k o Hgr);
      [by intros [= <-]|..];
      repeat match goal with
      | H : Forall _ (_ :: _) |- _ => apply Forall_cons in H as [? H]
      end; done.
  - intros g ws1 n1 n2 ws2 d ws3 l ws4 r rest line Hg Hws Hn Hn2 Hocc.
    assert (Hs : search gfx_pattern line = None).
    { subst line. rewrite gfx_line_apostrophe in *. rewrite gfx_pattern_stmt.
      apply apostrophe_no_match; try done.
      by apply starts_with_comma_app. }
    split; [exact Hs|]. unfold parse_gfx_lines. cbn [scan_lines].
    unfold scan_line. by rewrite Hs.
  - intros i ws1 n1 n2 more rest line Hi Hws Hn Hn2 Hocc.
    assert (Hs : search spawn_pattern line = None).
    { subst line. rewrite spawn_line_apostrophe in *.
      rewrite spawn_pattern_stmt.
      apply apostrophe_no_match; try done.
      by apply starts_with_comma_spawn. }
    split; [exact Hs|]. unfold parse_spawn_lines. cbn [scan_lines].
    unfold scan_line. by rewrite Hs.
Qed.

Lemma apostrophe_in_free_text_witness :
  gfx_of_line scenario_line <> None
  /\ parse_gfx_lines
       [gfx_line (txt "101") (txt " ") (txt "Giran" ++ quote :: txt "s door")
          (txt " ") (txt "2") (txt " ") (txt "-5") (txt " ") (txt "10")
        ++ [nl]] = Ok []
  /\ parse_spawn_lines
       [spawn_line (txt "1") (txt " ") (txt "Giran" ++ quote :: txt "s gate")
          [(txt " ", txt "102"); (txt " ", txt "33000"); (txt " ", txt "32000");
           (txt " ", txt "4"); (txt " ", txt "0"); (txt " ", txt "0");
           (txt " ", txt "1")] ++ [nl]] = Ok [].
Proof.
  destruct apostrophe_in_free_text as (Hnote & _ & Hgfx & Hspawn).
  split; [|split].
  - destruct (gfx_of_line scenario_line) as [e|] eqn:He; [|vm_compute in He; done].
    pose proof (Hnote scenario_line e He). done.
  - apply (Hgfx (txt "101") (txt " ") (txt "Giran") (txt "s door") (txt " ")
             (txt "2") (txt " ") (txt "-5") (txt " ") (txt "10") [nl]);
      reflexivity.
  - apply (Hspawn (txt "1") (txt " ") (txt "Giran") (txt "s gate")
             [(txt " ", txt "102"); (txt " ", txt "33000");
              (txt " ", txt "32000"); (txt " ", txt "4"); (txt " ", txt "0");
              (txt " ", txt "0"); (txt " ", txt "1")] [nl]);
      reflexivity.
Defined.

(** C10, as stated, fails: every field but the note is well formed, the
    note holds apostrophes, and yet the line matches and gives a record,
    made of what stands in front of the first statement end. *)
Lemma apostrophe_note_matched :
  let note := txt "a', '2', '3', '4');--" in
  free_str note = false
  /\ digit_str (txt "1") = true /\ digit_str (txt "9") = true
  /\ signed_str (txt "9") = true
  /\ parse_gfx_lines
       [gfx_line (txt "1") (txt " ") note (txt " ") (txt "9") (txt " ")
          (txt "9") (txt " ") (txt "9")]
     = Ok [{| Gfx.gfxid := 1; Gfx.note := txt "a"; Gfx.direction := 2;
              Gfx.left_edge_offset := 3; Gfx.right_edge_offset := 4 |}].
Proof. repeat split; vm_compute; reflexivity. Qed.

(** * Further properties *)

(** ** Outcomes of a run *)

(** The outcome of a run, by what the world allows: the two inputs are
    read before anything is written, and the graphics document is written
    and reported before the spawn document is opened. *)
Lemma main_cases w :
  main w
  = match files w !! gfx_sql, files w !! spawn_sql with
    | Some cg, Some cs =>
        if writable w gfx_yaml then
          if writable w spawn_yaml then
            (Ok tt, spawn_written (gfx_written w cg) cs)
          else (Raise OSError, gfx_written w cg)
        else (Raise OSError, w)
    | _, _ => (Raise OSError, w)
    end.
Proof.
  unfold main. unfold mbind at 1, M_bind at 1.
  destruct (files w !! gfx_sql) as [cg|] eqn:Hg.
  - rewrite (parse_gfx_sql_run _ _ _ Hg). unfold mbind at 1, M_bind at 1.
    destruct (files w !! spawn_sql) as [cs|] eqn:Hs.
    + rewrite (parse_spawn_sql_run _ _ _ Hs). unfold mbind at 1, M_bind at 1.
      destruct (writable w gfx_yaml) eqn:Hwg.
      * rewrite (write_gfx_yaml_run _ _ _ Hwg).
        fold (gfx_written w cg).
        destruct (writable w spawn_yaml) eqn:Hws.
        -- by rewrite write_spawn_yaml_run.
        -- unfold write_spawn_yaml, write_text, mbind, M_bind.
           cbn [writable gfx_written]. by rewrite Hws.
      * unfold write_gfx_yaml, write_text, mbind, M_bind. by rewrite Hwg.
    + unfold parse_spawn_sql, read_text, mbind, M_bind. by rewrite Hs.
  - unfold parse_gfx_sql, read_text, mbind, M_bind. by rewrite Hg.
Qed.



(** X2.  Whatever its outcome, a run changes no file but its two
    documents, so that its inputs are as they were; it changes nothing of
    what can be written, and what was printed before stays in front of
    what it prints. *)
Theorem main_frame (w : World) (p : string) :
  (p <> gfx_yaml -> p <> spawn_yaml ->
     files (main w).2 !! p = files w !! p)
  /\ files (main w).2 !! gfx_sql = files w !! gfx_sql
  /\ files (main w).2 !! spawn_sql = files w !! spawn_sql
  /\ writable (main w).2 = writable w
  /\ exists printed, stdout (main w).2 = stdout w ++ printed.
Proof.
  assert (Hframe : forall q, q <> gfx_yaml -> q <> spawn_yaml ->
            files (main w).2 !! q = files w !! q).
  { intros q Hg Hs. rewrite main_cases.
    destruct (files w !! gfx_sql) as [cg|], (files w !! spawn_sql) as [cs|],
      (writable w gfx_yaml), (writable w spawn_yaml);
      cbn [snd files spawn_written gfx_written]; try done;
      by rewrite ?lookup_insert_ne. }
  split; [exact (Hframe p)|]. split; [by apply Hframe|].
  split; [by apply Hframe|].
  rewrite main_cases.
  destruct (files w !! gfx_sql) as [cg|], (files w !! spawn_sql) as [cs|],
    (writable w gfx_yaml), (writable w spawn_yaml);
    cbn [snd writable stdout spawn_written gfx_written];
    (split; [done|]);
    first [ by exists []; rewrite app_nil_r
          | by eexists; rewrite <- !app_assoc
          | by eexists ].
Qed.

Lemma main_frame_witness :
  files (main stale_world).2 !! "notes.txt" = None
  /\ files (main stale_world).2 !! gfx_sql = Some sample_gfx_sql.
Proof.
  destruct (main_frame stale_world "notes.txt") as (H1 & H2 & _).
  split.
  - rewrite H1 by discriminate. reflexivity.
  - rewrite H2. reflexivity.
Defined.

(** ** The text of the documents *)

Lemma uint_text_ascii d : forallb is_ascii (uint_text d) = true.
Proof. induction d; cbn [uint_text forallb]; rewrite ?IHd; reflexivity. Qed.

Lemma str_of_int_ascii z : forallb is_ascii (str_of_int z) = true.
Proof.
  unfold str_of_int. destruct (Z.to_int z); cbn [forallb];
    rewrite uint_text_ascii; reflexivity.
Qed.

Lemma field_line_ascii label v :
  forallb is_ascii (txt label) = true -> forallb is_ascii v = true ->
  forallb is_ascii (field_line label v) = true.
Proof. intros Hl Hv. unfold field_line. by rewrite !forallb_app, Hl, Hv. Qed.

Lemma concat_ascii (items : list text) :
  Forall (fun i => forallb is_ascii i = true) items ->
  forallb is_ascii (concat items) = true.
Proof.
  induction 1 as [|i items Hi _ IH]; [done|].
  cbn [concat]. by rewrite forallb_app, Hi, IH.
Qed.

Lemma gfx_item_ascii e : forallb is_ascii (gfx_item e) = true.
Proof.
  unfold gfx_item, gfx_write. rewrite app_nil_l, !forallb_app.
  by rewrite !field_line_ascii by (reflexivity || apply str_of_int_ascii).
Qed.

Lemma spawn_item_ascii e : forallb is_ascii (spawn_item e) = true.
Proof.
  unfold spawn_item, spawn_write. rewrite app_nil_l, !forallb_app.
  assert (Hb : forallb is_ascii
                 (if Spawn.is_opening e then txt "true" else txt "false")
               = true) by (by destruct (Spawn.is_opening e)).
  by rewrite !field_line_ascii
    by (reflexivity || apply str_of_int_ascii || exact Hb).
Qed.

(** X3.  Whatever the records hold, and so whatever digits the input was
    written with, the two documents and the two lines printed consist of
    characters below 128 only. *)
Theorem documents_ascii :
  (forall es, forallb is_ascii (gfx_yaml_text es) = true)
  /\ (forall es, forallb is_ascii (spawn_yaml_text es) = true)
  /\ (forall n, forallb is_ascii (gfx_message n gfx_yaml) = true)
  /\ (forall n, forallb is_ascii (spawn_message n spawn_yaml) = true).
Proof.
  split; [|split; [|split]].
  - intros es. rewrite gfx_yaml_text_items, forallb_app.
    rewrite concat_ascii; [done|]. apply Forall_fmap, Forall_forall.
    intros e _. apply gfx_item_ascii.
  - intros es. rewrite spawn_yaml_text_items, forallb_app.
    rewrite concat_ascii; [done|]. apply Forall_fmap, Forall_forall.
    intros e _. apply spawn_item_ascii.
  - intros n. unfold gfx_message. by rewrite !forallb_app, str_of_int_ascii.
  - intros n. unfold spawn_message. by rewrite !forallb_app, str_of_int_ascii.
Qed.

Lemma gfx_items_lines es :
  lines_from [] (concat (gfx_item <$> es)) = concat (gfx_item_fields <$> es).
Proof.
  induction es as [|e es IH]; [reflexivity|].
  cbn [fmap list_fmap concat]. rewrite gfx_item_lines.
  change (list_fmap _ _ ?f ?l) with (f <$> l). by rewrite IH.
Qed.

Lemma spawn_items_lines es :
  lines_from [] (concat (spawn_item <$> es)) = concat (spawn_item_fields <$> es).
Proof.
  induction es as [|e es IH]; [reflexivity|].
  cbn [fmap list_fmap concat]. rewrite spawn_item_lines.
  change (list_fmap _ _ ?f ?l) with (f <$> l). by rewrite IH.
Qed.

Lemma gfx_doc_lines es :
  file_lines (gfx_yaml_text es)
  = (txt "door_gfxs:" ++ [nl]) :: concat (gfx_item_fields <$> es).
Proof.
  unfold file_lines. rewrite gfx_yaml_text_items, <- app_assoc.
  change ([nl] ++ ?r) with (nl :: r).
  rewrite lines_from_line by reflexivity. by rewrite gfx_items_lines.
Qed.

Lemma spawn_doc_lines es :
  file_lines (spawn_yaml_text es)
  = (txt "doors:" ++ [nl]) :: concat (spawn_item_fields <$> es).
Proof.
  unfold file_lines. rewrite spawn_yaml_text_items, <- app_assoc.
  change ([nl] ++ ?r) with (nl :: r).
  rewrite lines_from_line by reflexivity. by rewrite spawn_items_lines.
Qed.

Lemma length_concat_fmap {A} (f : A -> list text) (k : nat) es :
  (forall e, length (f e) = k) ->
  length (concat (f <$> es)) = (k * length es)%nat.
Proof.
  intros Hf. induction es as [|e es IH]; [cbn; lia|].
  rewrite fmap_cons, concat_cons, length_app, Hf, IH. cbn [length]. lia.
Qed.

Lemma field_line_last label v : last (field_line label v) = Some nl.
Proof. unfold field_line. by rewrite app_assoc, last_snoc. Qed.

(** X4.  Read back line by line, a document is its key line followed by
    the four lines of each graphics record, or the eight lines of each
    spawn record, in the order of the records: one line for the key and
    four, or eight, for each record, every one ended by a newline. *)
Theorem document_lines :
  (forall es,
     file_lines (gfx_yaml_text es)
     = (txt "door_gfxs:" ++ [nl]) :: concat (gfx_item_fields <$> es)
     /\ length (file_lines (gfx_yaml_text es)) = (1 + 4 * length es)%nat
     /\ Forall (fun l => last l = Some nl) (file_lines (gfx_yaml_text es)))
  /\ (forall es,
        file_lines (spawn_yaml_text es)
        = (txt "doors:" ++ [nl]) :: concat (spawn_item_fields <$> es)
        /\ length (file_lines (spawn_yaml_text es)) = (1 + 8 * length es)%nat
        /\ Forall (fun l => last l = Some nl)
             (file_lines (spawn_yaml_text es))).
Proof.
  split; intros es.
  - rewrite gfx_doc_lines. split; [done|]. split.
    + cbn [length]. rewrite (length_concat_fmap _ 4) by done. lia.
    + constructor; [by rewrite last_snoc|].
      induction es as [|e es IH]; [constructor|].
      rewrite fmap_cons, concat_cons. apply Forall_app. split; [|exact IH].
      unfold gfx_item_fields. repeat constructor; apply field_line_last.
  - rewrite spawn_doc_lines. split; [done|]. split.
    + cbn [length]. rewrite (length_concat_fmap _ 8) by done. lia.
    + constructor; [by rewrite last_snoc|].
      induction es as [|e es IH]; [constructor|].
      rewrite fmap_cons, concat_cons. apply Forall_app. split; [|exact IH].
      unfold spawn_item_fields. repeat constructor; apply field_line_last.
Qed.

Lemma str_of_int_inj z1 z2 : str_of_int z1 = str_of_int z2 -> z1 = z2.
Proof.
  intros H. rewrite <- (str_of_int_value z1), <- (str_of_int_value z2).
  by rewrite H.
Qed.

Lemma gfx_fields_inj (es1 : list Gfx.entry) : forall es2,
  concat (gfx_item_fields <$> es1) = concat (gfx_item_fields <$> es2) ->
  gfx_public <$> es1 = gfx_public <$> es2.
Proof.
  induction es1 as [|e1 es1 IH]; intros [|e2 es2] H; try done.
  cbn [fmap list_fmap concat gfx_item_fields app] in H.
  injection H as H1 H2 H3 H4 H.
  apply app_inv_tail, str_of_int_inj in H1, H2, H3, H4.
  cbn [fmap list_fmap]. f_equal; [|by apply IH].
  unfold gfx_public. by rewrite H1, H2, H3, H4.
Qed.

Lemma spawn_fields_inj (es1 : list Spawn.entry) : forall es2,
  concat (spawn_item_fields <$> es1) = concat (spawn_item_fields <$> es2) ->
  spawn_public <$> es1 = spawn_public <$> es2.
Proof.
  induction es1 as [|e1 es1 IH]; intros [|e2 es2] H; try done.
  cbn [fmap list_fmap concat spawn_item_fields app] in H.
  injection H as H1 H2 H3 H4 H5 H6 H7 H8 H.
  apply app_inv_tail, str_of_int_inj in H1, H2, H3, H4, H5, H6, H7.
  apply app_inv_tail in H8.
  assert (Hb : Spawn.is_opening e1 = Spawn.is_opening e2)
    by (by destruct (Spawn.is_opening e1), (Spawn.is_opening e2)).
  cbn [fmap list_fmap]. f_equal; [|by apply IH].
  unfold spawn_public. by rewrite H1, H2, H3, H4, H5, H6, H7, Hb.
Qed.

Lemma gfx_public_items (es1 : list Gfx.entry) : forall es2,
  gfx_public <$> es1 = gfx_public <$> es2 -> gfx_item <$> es1 = gfx_item <$> es2.
Proof.
  induction es1 as [|e1 es1 IH]; intros [|e2 es2] H; try done.
  rewrite 2!fmap_cons in H. rewrite 2!fmap_cons.
  injection H as H1 H2 H3 H4 H. rewrite (IH es2 H). f_equal.
  destruct e1, e2. cbn in H1, H2, H3, H4. by subst.
Qed.

Lemma spawn_public_items (es1 : list Spawn.entry) : forall es2,
  spawn_public <$> es1 = spawn_public <$> es2 ->
  spawn_item <$> es1 = spawn_item <$> es2.
Proof.
  induction es1 as [|e1 es1 IH]; intros [|e2 es2] H; try done.
  rewrite 2!fmap_cons in H. rewrite 2!fmap_cons.
  injection H as H1 H2 H3 H4 H5 H6 H7 H8 H. rewrite (IH es2 H). f_equal.
  destruct e1, e2. cbn in H1, H2, H3, H4, H5, H6, H7, H8. by subst.
Qed.

(** X5.  A document records exactly what is written of its records: two
    lists of records give the same document if and only if they agree,
    record by record, on every field but the note, or the location. *)
Theorem documents_faithful :
  (forall es1 es2 : list Gfx.entry,
     gfx_yaml_text es1 = gfx_yaml_text es2
     <-> gfx_public <$> es1 = gfx_public <$> es2)
  /\ (forall es1 es2 : list Spawn.entry,
        spawn_yaml_text es1 = spawn_yaml_text es2
        <-> spawn_public <$> es1 = spawn_public <$> es2).
Proof.
  split; intros es1 es2; split; intros H.
  - apply (f_equal file_lines) in H. rewrite !gfx_doc_lines in H.
    injection H as H. by apply gfx_fields_inj.
  - rewrite !gfx_yaml_text_items. f_equal. f_equal. by apply gfx_public_items.
  - apply (f_equal file_lines) in H. rewrite !spawn_doc_lines in H.
    injection H as H. by apply spawn_fields_inj.
  - rewrite !spawn_yaml_text_items. f_equal. f_equal.
    by apply spawn_public_items.
Qed.

Lemma documents_faithful_witness :
  gfx_yaml_text [{| Gfx.gfxid := 101; Gfx.note := txt "north door";
                    Gfx.direction := 2; Gfx.left_edge_offset := -5;
                    Gfx.right_edge_offset := 10 |}]
  = gfx_yaml_text [{| Gfx.gfxid := 101; Gfx.note := txt "south door";
                      Gfx.direction := 2; Gfx.left_edge_offset := -5;
                      Gfx.right_edge_offset := 10 |}].
Proof. apply (proj1 documents_faithful). reflexivity. Defined.

(** ** Writing and reading integers *)






(** ** Text in front of a statement *)









(** ** Statements that do not end after the last field *)

Lemma open_tuple_text f more (tail : text) :
  open_tuple f more ++ tail = tuple_text f more ++ quote :: tail.
Proof.
  unfold open_tuple. rewrite tuple_text_concat, <- !app_assoc. reflexivity.
Qed.

Lemma unclosed_no_match_here head k ks (f : text) more (tail : text) pos :
  tuple_ok k ks f more = true -> starts_with (txt ");") tail = false ->
  match_here (stmt_re head k ks) (txt head ++ open_tuple f more ++ tail) pos []
  = None.
Proof.
  intros Hok Htail. unfold stmt_re, re_lit.
  rewrite match_here_lit, open_tuple_text, tuple_det by done.
  change ((fun c => Atom (CChar c) Once) <$> txt "');")
    with [Atom (CChar quote) Once; Atom (CChar 41) Once; Atom (CChar 59) Once].
  cbn [match_here in_cls]. rewrite N.eqb_refl.
  destruct tail as [|a [|b tail]]; [done| |].
  - by destruct (a =? 41).
  - change (starts_with (txt ");") (a :: b :: tail))
      with ((41 =? a) && ((59 =? b) && true)) in Htail.
    rewrite andb_true_r, (N.eqb_sym 41), (N.eqb_sym 59) in Htail.
    destruct (a =? 41); [|done]. destruct (b =? 59); done.
Qed.

Lemma unclosed_no_match head k ks (f : text) more (tail : text) :
  tuple_ok k ks f more = true -> starts_with (txt ");") tail = false ->
  occurs (txt head) (drop 1 (txt head ++ open_tuple f more ++ tail)) = false ->
  search (stmt_re head k ks) (txt head ++ open_tuple f more ++ tail) = None.
Proof.
  intros Hok Htail Hocc. unfold search. apply search_from_none.
  intros pre s' Heq. destruct pre as [|x pre].
  - simpl in Heq. rewrite <- Heq. by apply unclosed_no_match_here.
  - by apply (stmt_no_later_match head _ _ _ (x :: pre) s' _ Hocc Heq).
Qed.

(** X8.  The closing parenthesis and the semicolon have to follow the
    last field at once: a line that starts with a statement whose fields
    are all well formed gives no record when anything else follows the
    quote that closes the last field, as a further column, the next tuple
    of a statement with several, or a line end where the semicolon should
    be; this is so when the head of the statement occurs nowhere else in
    the line. *)
Theorem unclosed_statement_skipped :
  (forall gfxid ws1 note ws2 direction ws3 left ws4 right tail,
     let line := txt gfx_head
                 ++ open_tuple gfxid [(ws1, note); (ws2, direction);
                                      (ws3, left); (ws4, right)]
                 ++ tail in
     digit_str gfxid = true -> free_str note = true ->
     digit_str direction = true ->
     signed_str left = true -> signed_str right = true ->
     forallb blank_str [ws1; ws2; ws3; ws4] = true ->
     starts_with (txt ");") tail = false ->
     occurs (txt gfx_head) (drop 1 line) = false ->
     parse_gfx_lines [line] = Ok [])
  /\ (forall id more tail,
        let line := txt spawn_head ++ open_tuple id more ++ tail in
        tuple_ok KDigits spawn_kinds id more = true ->
        starts_with (txt ");") tail = false ->
        occurs (txt spawn_head) (drop 1 line) = false ->
        parse_spawn_lines [line] = Ok []).
Proof.
  split.
  - intros g ws1 n ws2 d ws3 l ws4 r tail line Hg Hn Hd Hl Hr Hws Htail Hocc.
    cbn [forallb] in Hws. split_ok Hws.
    unfold parse_gfx_lines. cbn [scan_lines]. unfold scan_line.
    rewrite gfx_pattern_stmt. subst line.
    rewrite unclosed_no_match; [done| |done|done].
    cbn [tuple_ok gfx_kinds kind_ok].
    repeat match goal with H : _ = true |- _ => rewrite H; clear H end.
    reflexivity.
  - intros i more tail line Hok Htail Hocc.
    unfold parse_spawn_lines. cbn [scan_lines]. unfold scan_line.
    rewrite spawn_pattern_stmt. subst line.
    by rewrite unclosed_no_match.
Qed.

Lemma unclosed_statement_skipped_witness :
  parse_gfx_lines
    [txt "INSERT INTO `door_gfxs` VALUES ('101', 'north door', '2', '-5', '10'),('102', 'gate', '0', '3', '-4');"]
  = Ok []
  /\ parse_gfx_lines
       [txt "INSERT INTO `door_gfxs` VALUES ('101', 'north door', '2', '-5', '10')"
        ++ [nl]]
     = Ok [].
Proof.
  split.
  - apply (proj1 unclosed_statement_skipped (txt "101") (txt " ")
             (txt "north door") (txt " ") (txt "2") (txt " ") (txt "-5")
             (txt " ") (txt "10") (txt "),('102', 'gate', '0', '3', '-4');"));
      reflexivity.
  - apply (proj1 unclosed_statement_skipped (txt "101") (txt " ")
             (txt "north door") (txt " ") (txt "2") (txt " ") (txt "-5")
             (txt " ") (txt "10") (txt ")" ++ [nl]));
      reflexivity.
Defined.

(** ** Line breaks *)

Lemma lines_from_crlf s : forall cur,
  no_char cr s = true ->
  lines_from cur (with_breaks [cr; nl] s) = lines_from cur s.
Proof.
  induction s as [|c s IH]; intros cur Hs; [done|].
  unfold no_char in Hs. cbn [forallb] in Hs. apply andb_prop in Hs as [Hc Hs].
  apply negb_true_iff in Hc. unfold with_breaks. cbn [flat_map].
  fold (with_breaks [cr; nl] s). destruct (c =? nl) eqn:Hn.
  - cbn [app lines_from]. change (cr =? nl) with false.
    change (cr =? cr) with true. change (nl =? nl) with true. cbv iota.
    rewrite Hn, IH by exact Hs. reflexivity.
  - cbn [app lines_from]. rewrite Hn, Hc, IH by exact Hs. reflexivity.
Qed.

Lemma with_breaks_cr_head s c rest :
  with_breaks [cr] s = c :: rest -> (c =? nl) = false.
Proof.
  destruct s as [|x s]; [done|]. unfold with_breaks. cbn [flat_map].
  destruct (x =? nl) eqn:Hx; cbn [app]; intros [= <- _]; done.
Qed.

Lemma lines_from_cr s : forall cur,
  no_char cr s = true ->
  lines_from cur (with_breaks [cr] s) = lines_from cur s.
Proof.
  induction s as [|c s IH]; intros cur Hs; [done|].
  unfold no_char in Hs. cbn [forallb] in Hs. apply andb_prop in Hs as [Hc Hs].
  apply negb_true_iff in Hc. unfold with_breaks. cbn [flat_map].
  fold (with_breaks [cr] s). destruct (c =? nl) eqn:Hn.
  - cbn [app lines_from]. change (cr =? nl) with false.
    change (cr =? cr) with true. cbv iota.
    destruct (with_breaks [cr] s) as [|c' s'] eqn:E.
    + rewrite Hn. destruct s as [|x s]; [done|]. unfold with_breaks in E.
      cbn [flat_map] in E. by destruct (x =? nl).
    + rewrite (with_breaks_cr_head s c' s' E), Hn, IH by exact Hs.
      reflexivity.
  - cbn [app lines_from]. rewrite Hn, Hc, IH by exact Hs. reflexivity.
Qed.

(** X9.  The files are read as text: an input whose lines end with a
    carriage return and a newline, or with a carriage return alone, gives
    the same lines, and so the same records, as the input with newlines. *)
Theorem line_breaks_translated (content : text) :
  no_char cr content = true ->
  file_lines (with_breaks [cr; nl] content) = file_lines content
  /\ file_lines (with_breaks [cr] content) = file_lines content
  /\ gfx_entries (with_breaks [cr; nl] content) = gfx_entries content
  /\ gfx_entries (with_breaks [cr] content) = gfx_entries content
  /\ spawn_entries (with_breaks [cr; nl] content) = spawn_entries content
  /\ spawn_entries (with_breaks [cr] content) = spawn_entries content.
Proof.
  intros H. unfold gfx_entries, spawn_entries, file_lines.
  by rewrite lines_from_crlf, lines_from_cr.
Qed.

Lemma line_breaks_translated_witness :
  gfx_entries (with_breaks [cr; nl] sample_gfx_sql) = gfx_entries sample_gfx_sql.
Proof.
  destruct (line_breaks_translated sample_gfx_sql) as (_ & _ & H & _);
    [reflexivity|exact H].
Defined.

(** ** Inputs put one after the other *)

Lemma lines_from_app_nl (n : nat) : forall (c : text) cur c2,
  (length c <= n)%nat ->
  lines_from cur (c ++ nl :: c2)
  = lines_from cur (c ++ [nl]) ++ lines_from [] c2.
Proof.
  induction n as [|n IH]; intros c cur c2 Hlen.
  - destruct c; [reflexivity|cbn in Hlen; lia].
  - destruct c as [|x c]; [reflexivity|]. cbn [length] in Hlen.
    cbn [app lines_from]. destruct (x =? nl).
    { rewrite IH by lia. reflexivity. }
    destruct (x =? cr); [|apply IH; lia].
    destruct c as [|y c]; [reflexivity|]. cbn [app length] in *.
    destruct (y =? nl).
    + rewrite IH by lia. reflexivity.
    + pose proof (IH (y :: c) [] c2 ltac:(cbn [length]; lia)) as H.
      cbn [app] in H. rewrite H. reflexivity.
Qed.

(** X10.  Extraction goes line by line, so inputs compose: when a first
    input ends with a newline, the records of the two inputs put one
    after the other are the records of the first followed by those of the
    second, and their document is the document of the first followed by
    the items of the second. *)
Theorem inputs_compose (c1 c2 : text) :
  file_lines ((c1 ++ [nl]) ++ c2) = file_lines (c1 ++ [nl]) ++ file_lines c2
  /\ gfx_entries ((c1 ++ [nl]) ++ c2)
     = gfx_entries (c1 ++ [nl]) ++ gfx_entries c2
  /\ spawn_entries ((c1 ++ [nl]) ++ c2)
     = spawn_entries (c1 ++ [nl]) ++ spawn_entries c2
  /\ gfx_yaml_text (gfx_entries ((c1 ++ [nl]) ++ c2))
     = gfx_yaml_text (gfx_entries (c1 ++ [nl]))
       ++ concat (gfx_item <$> gfx_entries c2)
  /\ spawn_yaml_text (spawn_entries ((c1 ++ [nl]) ++ c2))
     = spawn_yaml_text (spawn_entries (c1 ++ [nl]))
       ++ concat (spawn_item <$> spawn_entries c2).
Proof.
  assert (Hl : file_lines ((c1 ++ [nl]) ++ c2)
               = file_lines (c1 ++ [nl]) ++ file_lines c2).
  { unfold file_lines. rewrite <- app_assoc.
    apply (lines_from_app_nl (length c1)). lia. }
  assert (Hg : gfx_entries ((c1 ++ [nl]) ++ c2)
               = gfx_entries (c1 ++ [nl]) ++ gfx_entries c2).
  { unfold gfx_entries. by rewrite Hl, omap_app. }
  assert (Hs : spawn_entries ((c1 ++ [nl]) ++ c2)
               = spawn_entries (c1 ++ [nl]) ++ spawn_entries c2).
  { unfold spawn_entries. by rewrite Hl, omap_app. }
  split; [exact Hl|]. split; [exact Hg|]. split; [exact Hs|]. split.
  - rewrite Hg, !gfx_yaml_text_items, fmap_app, concat_app.
    by rewrite <- !app_assoc.
  - rewrite Hs, !spawn_yaml_text_items, fmap_app, concat_app.
    by rewrite <- !app_assoc.
Qed.
